(** * chess-ai: the search engine of [src/engine/engine.js]

    A shallow embedding of the engine (static evaluation, capture-first move
    ordering, node- and time-bounded alpha-beta search, iterative deepening at
    the root and the difficulty table), and the properties of it that the
    specification states.

    The rules library (chess.js) is an external collaborator: the engine only
    talks to it through a handful of methods of the [game] object.  Those
    methods are the fields of the class [Chess]; what the engine needs from
    them is the law [undo_move].  The object is mutated in place by
    [game.move] and [game.undo]; here the object's state is threaded through
    every function that touches it. *)

From Stdlib Require Import ZArith QArith Qround List Bool String Lia Lqa.
From Stdlib Require Import Permutation Sorted Ascii DecimalString.
Import ListNotations.
Open Scope string_scope.
Open Scope Z_scope.

Set Implicit Arguments.

(* ------------------------------------------------------------------ *)
(** ** Data model *)

(** Piece letters of chess.js: "p" "n" "b" "r" "q" "k". *)
Inductive PieceType := Pawn | Knight | Bishop | Rook | Queen | King.

Inductive Color := White | Black.   (* "w" | "b" *)

Record Piece := { type : PieceType; color : Color }.

(** A verbose move of chess.js.  [captured] and [promotion] are absent on
    most moves; [orderMovesSafe] also guards against a missing [piece]. *)
Record Move := {
  from : string;
  to : string;
  piece : option PieceType;
  captured : option PieceType;
  promotion : option PieceType;
  san : string
}.

(** JS numbers as the engine uses them: integers, and the two infinities
    that seed alpha, beta and the running best. *)
Inductive Num := NegInfinity | Fin (z : Z) | Infinity.

Definition num_lt (a b : Num) : bool :=
  match a, b with
  | NegInfinity, NegInfinity => false
  | NegInfinity, _ => true
  | Fin _, NegInfinity => false
  | Fin x, Fin y => x <? y
  | Fin _, Infinity => true
  | Infinity, _ => false
  end.

Definition num_gt (a b : Num) : bool := num_lt b a.

Definition num_ge (a b : Num) : bool :=
  match a, b with
  | _, NegInfinity => true
  | NegInfinity, _ => false
  | Infinity, _ => true
  | Fin _, Infinity => false
  | Fin x, Fin y => x >=? y
  end.

(** [t[r][c]] on an array of rows.  The engine reads only inside the 8x8
    arrays it is given; an index outside reads as [d] here. *)
Definition at2 {A} (d : A) (t : list (list A)) (r c : nat) : A :=
  nth c (nth r t []) d.

(* ------------------------------------------------------------------ *)
(** ** Constants *)

Definition MATERIAL (p : PieceType) : Z :=
  match p with
  | Pawn => 100
  | Knight => 320
  | Bishop => 330
  | Rook => 500
  | Queen => 900
  | King => 20000
  end.

Definition MATE_SCORE : Z := 100000.

(** A value found under a name of [DIFFICULTY_CONFIG].  A property that the
    value does not have reads as undefined: [None]. *)
Record Profile := {
  cfg_depth : option nat;
  cfg_nodeLimit : option Z;
  cfg_randomness : option Q;
  cfg_timeMs : option Z
}.

Definition beginner : Profile :=
  {| cfg_depth := Some 2%nat; cfg_nodeLimit := Some 8000;
     cfg_randomness := Some (35 # 100); cfg_timeMs := Some 800 |}.

Definition moderate : Profile :=
  {| cfg_depth := Some 3%nat; cfg_nodeLimit := Some 20000;
     cfg_randomness := Some (5 # 100); cfg_timeMs := Some 1500 |}.

Definition advanced : Profile :=
  {| cfg_depth := Some 4%nat; cfg_nodeLimit := Some 60000;
     cfg_randomness := Some 0%Q; cfg_timeMs := Some 3000 |}.

(** [DIFFICULTY_CONFIG] is an object literal, so besides its three own
    properties a lookup by name finds what every object inherits from
    [Object.prototype]: functions, and the prototype itself under
    ["__proto__"].  All of these are truthy and have none of the four
    properties of a profile. *)
Definition inheritedNames : list string :=
  [ "constructor"; "toString"; "toLocaleString"; "valueOf";
    "hasOwnProperty"; "isPrototypeOf"; "propertyIsEnumerable"; "__proto__";
    "__defineGetter__"; "__defineSetter__";
    "__lookupGetter__"; "__lookupSetter__" ].

Definition inheritedValue : Profile :=
  {| cfg_depth := None; cfg_nodeLimit := None;
     cfg_randomness := None; cfg_timeMs := None |}.

(** [DIFFICULTY_CONFIG[name]]; [None] is undefined. *)
Definition DIFFICULTY_CONFIG (name : string) : option Profile :=
  if String.eqb name "beginner" then Some beginner
  else if String.eqb name "moderate" then Some moderate
  else if String.eqb name "advanced" then Some advanced
  else if existsb (String.eqb name) inheritedNames then Some inheritedValue
  else None.

Definition PST_P : list (list Z) :=
  [ [0; 0; 0; 0; 0; 0; 0; 0];
    [50; 50; 50; 50; 50; 50; 50; 50];
    [10; 10; 20; 30; 30; 20; 10; 10];
    [5; 5; 10; 25; 25; 10; 5; 5];
    [0; 0; 0; 20; 20; 0; 0; 0];
    [5; -5; -10; 0; 0; -10; -5; 5];
    [5; 10; 10; -20; -20; 10; 10; 5];
    [0; 0; 0; 0; 0; 0; 0; 0] ].

Definition PST_N : list (list Z) :=
  [ [-50; -40; -30; -30; -30; -30; -40; -50];
    [-40; -20; 0; 5; 5; 0; -20; -40];
    [-30; 5; 10; 15; 15; 10; 5; -30];
    [-30; 0; 15; 20; 20; 15; 0; -30];
    [-30; 5; 15; 20; 20; 15; 5; -30];
    [-30; 0; 10; 15; 15; 10; 0; -30];
    [-40; -20; 0; 0; 0; 0; -20; -40];
    [-50; -40; -30; -30; -30; -30; -40; -50] ].

Definition PST_B : list (list Z) :=
  [ [-20; -10; -10; -10; -10; -10; -10; -20];
    [-10; 0; 0; 0; 0; 0; 0; -10];
    [-10; 0; 5; 10; 10; 5; 0; -10];
    [-10; 5; 5; 10; 10; 5; 5; -10];
    [-10; 0; 10; 10; 10; 10; 0; -10];
    [-10; 10; 10; 10; 10; 10; 10; -10];
    [-10; 5; 0; 0; 0; 0; 5; -10];
    [-20; -10; -10; -10; -10; -10; -10; -20] ].

Definition PST_R : list (list Z) :=
  [ [0; 0; 0; 0; 0; 0; 0; 0];
    [5; 10; 10; 10; 10; 10; 10; 5];
    [-5; 0; 0; 0; 0; 0; 0; -5];
    [-5; 0; 0; 0; 0; 0; 0; -5];
    [-5; 0; 0; 0; 0; 0; 0; -5];
    [-5; 0; 0; 0; 0; 0; 0; -5];
    [-5; 0; 0; 0; 0; 0; 0; -5];
    [0; 0; 0; 5; 5; 0; 0; 0] ].

Definition PST_Q : list (list Z) :=
  [ [-20; -10; -10; -5; -5; -10; -10; -20];
    [-10; 0; 0; 0; 0; 0; 0; -10];
    [-10; 0; 5; 5; 5; 5; 0; -10];
    [-5; 0; 5; 5; 5; 5; 0; -5];
    [0; 0; 5; 5; 5; 5; 0; -5];
    [-10; 5; 5; 5; 5; 5; 0; -10];
    [-10; 0; 5; 0; 0; 0; 0; -10];
    [-20; -10; -10; -5; -5; -10; -10; -20] ].

Definition PST_K : list (list Z) :=
  [ [-30; -40; -40; -50; -50; -40; -40; -30];
    [-30; -40; -40; -50; -50; -40; -40; -30];
    [-30; -40; -40; -50; -50; -40; -40; -30];
    [-30; -40; -40; -50; -50; -40; -40; -30];
    [-20; -30; -30; -40; -40; -30; -30; -20];
    [-10; -20; -20; -20; -20; -20; -20; -10];
    [20; 20; 0; 0; 0; 0; 20; 20];
    [20; 30; 10; 0; 0; 10; 30; 20] ].

Definition PST (p : PieceType) : list (list Z) :=
  match p with
  | Pawn => PST_P
  | Knight => PST_N
  | Bishop => PST_B
  | Rook => PST_R
  | Queen => PST_Q
  | King => PST_K
  end.

(** [getValue(p) = MATERIAL[p] || 0]; [p] may be undefined. *)
Definition getValue (p : option PieceType) : Z :=
  match p with
  | Some t => MATERIAL t
  | None => 0
  end.

(* ------------------------------------------------------------------ *)
(** ** The rules collaborator *)

Definition Board := list (list (option Piece)).

(** The methods of the chess.js [game] object that the engine calls.
    The two repetition methods are the two spellings that different
    versions of the library expose; either may be missing.  [moves] is
    [None] when [game.moves({verbose: true})] throws or returns a falsy
    value.  [move] and [undo] give the state of the object after the call. *)
Class Chess (G : Type) := {
  isCheckmate : G -> bool;
  isDraw : G -> bool;
  isGameOver : G -> bool;
  isThreefoldRepetition : option (G -> bool);
  inThreefoldRepetition : option (G -> bool);
  turn : G -> Color;
  board : G -> Board;
  moves : G -> option (list Move);
  move : G -> Move -> G;
  undo : G -> G
}.

Section Engine.

Context {G : Type} `{Chess G}.

Definition isThreefold (game : G) : bool :=
  match isThreefoldRepetition with
  | Some f => f game
  | None =>
      match inThreefoldRepetition with
      | Some f => f game
      | None => false
      end
  end.

Definition safeMoves (game : G) : list Move :=
  match moves game with
  | Some l => l
  | None => []
  end.

(* ------------------------------------------------------------------ *)
(** ** evaluate *)

(** The body of the two nested loops for one square [board[r][c]]. *)
Definition squareScore (b : Board) (r c : nat) : Z :=
  match at2 None b r c with
  | None => 0
  | Some p =>
      let base := MATERIAL (type p) in
      let table := PST (type p) in
      let pst :=
        match color p with
        | White => at2 0 table r c
        | Black => - at2 0 table (7 - r) c
        end in
      match color p with
      | White => base + pst
      | Black => - (base + pst)
      end
  end.

Definition boardScore (b : Board) : Z :=
  fold_left
    (fun score r =>
       fold_left (fun score c => score + squareScore b r c) (seq 0 8) score)
    (seq 0 8) 0.

Definition evaluate (game : G) : Z :=
  if isCheckmate game then
    match turn game with
    | White => - MATE_SCORE
    | Black => MATE_SCORE
    end
  else if isDraw game || isThreefold game then 0
  else
    let score := boardScore (board game) in
    let mobility := Z.of_nat (List.length (safeMoves game)) in
    score + (match turn game with White => 1 | Black => -1 end) * mobility * 2.

(* ------------------------------------------------------------------ *)
(** ** orderMovesSafe *)

(** [Array.prototype.sort(cmp)]: a built-in, stable since ES2019.  [cmp a b]
    negative puts [a] first, positive puts [b] first, zero keeps the order
    the two had.  Modelled by insertion from the right, which is stable. *)
Fixpoint jsInsert {A} (cmp : A -> A -> Z) (x : A) (l : list A) : list A :=
  match l with
  | [] => [x]
  | y :: ys => if cmp x y <=? 0 then x :: y :: ys else y :: jsInsert cmp x ys
  end.

Fixpoint jsSort {A} (cmp : A -> A -> Z) (l : list A) : list A :=
  match l with
  | [] => []
  | x :: xs => jsInsert cmp x (jsSort cmp xs)
  end.

(** The objects [{ mv, score }] built by the first [map]. *)
Record Scored (S : Type) := { mv : Move; score : S }.
Arguments mv {S} _.
Arguments score {S} _.

Definition moveScore (m : Move) : Z :=
  (match captured m with Some c => MATERIAL c * 10 | None => 0 end)
  - (match piece m with Some p => MATERIAL p | None => 0 end).

Definition orderMovesSafe (moves : list Move) : list Move :=
  map (fun x => mv x)
    (jsSort (fun a b => score b - score a)
       (map (fun m => {| mv := m; score := moveScore m |}) moves)).

(* ------------------------------------------------------------------ *)
(** ** minimaxSafe *)

(** The budget object [state].  [nodeLimit] is [None] when the property is
    undefined (a comparison with undefined is false); [endTime] is [None]
    for null. *)
Record SearchState := {
  nodes : Z;
  nodeLimit : option Z;
  endTime : option Z
}.

(** Everything a search call can change: the game object, the budget
    object, and how many times [Date.now()] has been read. *)
Record World := {
  game : G;
  state : SearchState;
  clock : nat
}.

(** [now n] is what the [n]-th call of [Date.now()] returns. *)
Variable now : nat -> Z.

(** [++state.nodes >= state.nodeLimit]: the increment, and the test. *)
Definition bump (w : World) : World :=
  {| game := game w;
     state := {| nodes := nodes (state w) + 1;
                 nodeLimit := nodeLimit (state w);
                 endTime := endTime (state w) |};
     clock := clock w |}.

Definition overLimit (w : World) : bool :=
  match nodeLimit (state w) with
  | Some limit => nodes (state w) >=? limit
  | None => false
  end.

(** [state.endTime && Date.now() >= state.endTime]: the clock is read only
    when [endTime] is truthy (neither null nor 0). *)
Definition timeUp (w : World) : bool * World :=
  match endTime (state w) with
  | Some t =>
      if t =? 0 then (false, w)
      else (now (clock w) >=? t,
            {| game := game w; state := state w; clock := S (clock w) |})
  | None => (false, w)
  end.

Definition applyMove (w : World) (m : Move) : World :=   (* game.move(mv) *)
  {| game := move (game w) m; state := state w; clock := clock w |}.

Definition undoMove (w : World) : World :=               (* game.undo() *)
  {| game := undo (game w); state := state w; clock := clock w |}.

(** The loop of a maximizing node; [search] is the recursive call at
    [depth - 1] with the flag flipped. *)
Fixpoint maxLoop (search : World -> Num -> Num -> Num * World)
    (moves : list Move) (best alpha beta : Num) (w : World) : Num * World :=
  match moves with
  | [] => (best, w)
  | m :: rest =>
      let (val, w1) := search (applyMove w m) alpha beta in
      let w2 := undoMove w1 in
      let best := if num_gt val best then val else best in
      let alpha := if num_gt val alpha then val else alpha in
      if num_ge alpha beta then (best, w2)
      else maxLoop search rest best alpha beta w2
  end.

(** The loop of a minimizing node. *)
Fixpoint minLoop (search : World -> Num -> Num -> Num * World)
    (moves : list Move) (best alpha beta : Num) (w : World) : Num * World :=
  match moves with
  | [] => (best, w)
  | m :: rest =>
      let (val, w1) := search (applyMove w m) alpha beta in
      let w2 := undoMove w1 in
      let best := if num_lt val best then val else best in
      let beta := if num_lt val beta then val else beta in
      if num_ge alpha beta then (best, w2)
      else minLoop search rest best alpha beta w2
  end.

(** [depth] is a natural number: the root calls with [d - 1] for
    [d >= 1], and every recursive call subtracts one until [depth === 0]. *)
Fixpoint minimaxSafe (depth : nat) (w : World) (alpha beta : Num)
    (maximizing : bool) : Num * World :=
  let w := bump w in
  if overLimit w then (Fin (evaluate (game w)), w)
  else
    let (late, w) := timeUp w in
    if late then (Fin (evaluate (game w)), w)
    else
      match depth with
      | O => (Fin (evaluate (game w)), w)
      | S depth' =>
          if isGameOver (game w) then (Fin (evaluate (game w)), w)
          else
            let moves := orderMovesSafe (safeMoves (game w)) in
            match moves with
            | [] => (Fin (evaluate (game w)), w)
            | _ :: _ =>
                if maximizing then
                  maxLoop (fun w a b => minimaxSafe depth' w a b false)
                    moves NegInfinity alpha beta w
                else
                  minLoop (fun w a b => minimaxSafe depth' w a b true)
                    moves Infinity alpha beta w
            end
      end.

(* ------------------------------------------------------------------ *)
(** ** Root search *)

(** [Math.round]: to the nearest integer, halves upwards. *)
Definition Math_round (x : Q) : Z := Qfloor (x + (1 # 2)).

(** [a[i]] for a number [i]; [None] is undefined. *)
Definition jsIndex {A} (a : list A) (i : Z) : option A :=
  if i <? 0 then None else nth_error a (Z.to_nat i).

(** [rnd] is what [Math.random()] returns when it is called.  The result is
    [None] when the indexed element is undefined, where reading [.mv]
    raises a TypeError. *)
Definition chooseMoveWithRandomness (scoredMoves : list (Scored Num))
    (randomness : option Q) (rnd : Q) : option Move :=
  let falsy :=
    match randomness with
    | Some r => Qeq_bool r 0
    | None => true
    end in
  if falsy || (List.length scoredMoves <=? 1)%nat then
    option_map (fun x => mv x) (jsIndex scoredMoves 0)
  else
    let r := match randomness with Some r => r | None => 0%Q end in
    let maxIndex :=
      Z.max 1
        (Math_round (inject_Z (Z.of_nat (List.length scoredMoves)) * r)) - 1 in
    let idx := Qfloor (rnd * inject_Z (maxIndex + 1)) in
    option_map (fun x => mv x) (jsIndex scoredMoves idx).

(** What [findBestMove] hands back: null, a move, or an exception. *)
Inductive Answer := Null | Chosen (m : Move) | TypeError.

(** The immediate-mate loop: the first move after which the game reports
    checkmate, and the game object as the loop leaves it. *)
Fixpoint mateInOne (moves : list Move) (g : G) : option Move * G :=
  match moves with
  | [] => (None, g)
  | m :: rest =>
      let g1 := move g m in
      if isCheckmate g1 then (Some m, undo g1)
      else mateInOne rest (undo g1)
  end.

(** The loop over the root moves at depth [d]. *)
Fixpoint rootLoop (d : nat) (moves : list Move) (depthBest : Move)
    (depthBestEval : Num) (w : World) : Move * Num * World :=
  match moves with
  | [] => (depthBest, depthBestEval, w)
  | m :: rest =>
      let (val, w1) :=
        minimaxSafe (d - 1) (applyMove w m) NegInfinity Infinity true in
      let w2 := undoMove w1 in
      let (depthBest, depthBestEval) :=
        if num_lt val depthBestEval then (m, val)
        else (depthBest, depthBestEval) in
      let (late, w3) := timeUp w2 in
      if late then (depthBest, depthBestEval, w3)
      else rootLoop d rest depthBest depthBestEval w3
  end.

(** Iterative deepening: [n] iterations are left, the next one at depth
    [d]; [findBestMove] starts it with [n = cfg.depth] and [d = 1].  Every
    iteration makes a fresh budget object. *)
Fixpoint deepen (n d : nat) (limit : option Z) (deadline : option Z)
    (moves : list Move) (best : Move) (bestEval : Num) (g : G) (clk : nat)
    : Move * Num * G * nat :=
  match n with
  | O => (best, bestEval, g, clk)
  | S n' =>
      let w :=
        {| game := g;
           state := {| nodes := 0; nodeLimit := limit; endTime := deadline |};
           clock := clk |} in
      let '(depthBest, depthBestEval, w1) :=
        rootLoop d moves best bestEval w in
      let (late, w2) := timeUp w1 in
      if late then (depthBest, depthBestEval, game w2, clock w2)
      else deepen n' (S d) limit deadline moves depthBest depthBestEval
             (game w2) (clock w2)
  end.

(** [findBestMove(game, difficulty)], started when [Date.now()] has been
    read [clk] times.  The result comes with the game object and the clock
    count as the call leaves them. *)
Definition findBestMove (g : G) (difficulty : string) (clk : nat) (rnd : Q)
    : Answer * G * nat :=
  if isCheckmate g || isDraw g then (Null, g, clk)
  else
    let cfg :=
      match DIFFICULTY_CONFIG difficulty with
      | Some c => c
      | None => moderate
      end in
    let moves := orderMovesSafe (safeMoves g) in
    match moves with
    | [] => (Null, g, clk)
    | first :: _ =>
        match mateInOne moves g with
        | (Some m, g1) => (Chosen m, g1, clk)
        | (None, g1) =>
            let (deadline, clk1) :=
              match cfg_timeMs cfg with
              | Some t =>
                  if t =? 0 then (None, clk)
                  else (Some (now clk + t), S clk)
              | None => (None, clk)
              end in
            let iterations :=
              match cfg_depth cfg with
              | Some n => n
              | None => O
              end in
            let '(best, bestEval, g2, clk2) :=
              deepen iterations 1 (cfg_nodeLimit cfg) deadline moves
                first Infinity g1 clk1 in
            let pick :=
              chooseMoveWithRandomness
                [ {| mv := best; score := bestEval |};
                  {| mv := best; score := bestEval |} ]
                (cfg_randomness cfg) rnd in
            (match pick with Some m => Chosen m | None => TypeError end,
             g2, clk2)
        end
    end.

(** The legacy export. *)
Definition findBestMoveB (g : G) (clk : nat) (rnd : Q) : Answer * G * nat :=
  findBestMove g "moderate" clk rnd.

End Engine.

Arguments World G : clear implicits.

(* ------------------------------------------------------------------ *)
(** ** What the engine relies on *)

(** [game.undo()] takes back the move that [game.move(mv)] just made, for
    every move [mv] that the game itself listed as legal. *)
Class ChessLaws (G : Type) `{Chess G} : Prop := {
  undo_move : forall (g : G) (m : Move),
    In m (safeMoves g) -> undo (move g m) = g
}.
Arguments ChessLaws G {_}.

(* ------------------------------------------------------------------ *)
(** ** A concrete collaborator: explicit game trees

    A position is a node that carries the answers of the status queries and,
    under every legal move, the position that the move leads to.  The game
    object is the current node and the stack of nodes that [undo] pops. *)

#[local] Unset Elimination Schemes.
Inductive Node :=
  mkNode (nBoard : Board) (nTurn : Color)
         (nCheckmate nDraw nGameOver nThreefold : bool)
         (nMoves : option (list (Move * Node))).
#[local] Set Elimination Schemes.

Definition nBoard (n : Node) := let 'mkNode b _ _ _ _ _ _ := n in b.
Definition nTurn (n : Node) := let 'mkNode _ t _ _ _ _ _ := n in t.
Definition nCheckmate (n : Node) := let 'mkNode _ _ x _ _ _ _ := n in x.
Definition nDraw (n : Node) := let 'mkNode _ _ _ x _ _ _ := n in x.
Definition nGameOver (n : Node) := let 'mkNode _ _ _ _ x _ _ := n in x.
Definition nThreefold (n : Node) := let 'mkNode _ _ _ _ _ x _ := n in x.
Definition nMoves (n : Node) := let 'mkNode _ _ _ _ _ _ l := n in l.

Record TreeGame := { cur : Node; past : list Node }.

Definition PieceType_eq_dec (a b : PieceType) : {a = b} + {a <> b}.
Proof. decide equality. Defined.

Definition Move_eq_dec (a b : Move) : {a = b} + {a <> b}.
Proof.
  decide equality;
    try apply string_dec;
    decide equality; apply PieceType_eq_dec.
Defined.

Fixpoint child (m : Move) (l : list (Move * Node)) : option Node :=
  match l with
  | [] => None
  | (m', n) :: rest => if Move_eq_dec m m' then Some n else child m rest
  end.

(** [game.move] of a move that is not legal is refused by chess.js; the
    engine never asks for one, and here it leaves the object as it is. *)
Definition treeMove (g : TreeGame) (m : Move) : TreeGame :=
  match nMoves (cur g) with
  | Some l =>
      match child m l with
      | Some n => {| cur := n; past := cur g :: past g |}
      | None => g
      end
  | None => g
  end.

Definition treeUndo (g : TreeGame) : TreeGame :=
  match past g with
  | n :: rest => {| cur := n; past := rest |}
  | [] => g
  end.

#[export] Instance TreeChess : Chess TreeGame := {
  isCheckmate g := nCheckmate (cur g);
  isDraw g := nDraw (cur g);
  isGameOver g := nGameOver (cur g);
  isThreefoldRepetition := Some (fun g => nThreefold (cur g));
  inThreefoldRepetition := None;
  turn g := nTurn (cur g);
  board g := nBoard (cur g);
  moves g := option_map (map fst) (nMoves (cur g));
  move := treeMove;
  undo := treeUndo
}.

(* ------------------------------------------------------------------ *)
(** ** Concrete positions *)

Definition wp (t : PieceType) : option Piece := Some {| type := t; color := White |}.
Definition bp (t : PieceType) : option Piece := Some {| type := t; color := Black |}.

Definition backRank (p : PieceType -> option Piece) : list (option Piece) :=
  [p Rook; p Knight; p Bishop; p Queen; p King; p Bishop; p Knight; p Rook].

Definition emptyRow : list (option Piece) := repeat None 8.

(** [game.board()] of a new game: row 0 is the eighth rank. *)
Definition initialBoard : Board :=
  [ backRank bp; repeat (bp Pawn) 8;
    emptyRow; emptyRow; emptyRow; emptyRow;
    repeat (wp Pawn) 8; backRank wp ].

Definition quiet (p : PieceType) (f t : string) : Move :=
  {| from := f; to := t; piece := Some p; captured := None;
     promotion := None;
     san := match p with Pawn => t | Knight => "N" ++ t | Bishop => "B" ++ t
            | Rook => "R" ++ t | Queen => "Q" ++ t | King => "K" ++ t end |}.

Definition capture (p x : PieceType) (f t s : string) : Move :=
  {| from := f; to := t; piece := Some p; captured := Some x;
     promotion := None; san := s |}.

(** The twenty legal moves of the initial position. *)
Definition initialMoves : list Move :=
  flat_map (fun f => [quiet Pawn (f ++ "2") (f ++ "3");
                      quiet Pawn (f ++ "2") (f ++ "4")])
    ["a"; "b"; "c"; "d"; "e"; "f"; "g"; "h"]
  ++ [quiet Knight "b1" "a3"; quiet Knight "b1" "c3";
      quiet Knight "g1" "f3"; quiet Knight "g1" "h3"].

(** A position whose continuation is not looked at. *)
Definition stub (b : Board) (t : Color) : Node :=
  mkNode b t false false false false (Some []).

Definition initialNode : Node :=
  mkNode initialBoard White false false false false
    (Some (map (fun m => (m, stub initialBoard Black)) initialMoves)).

Definition newGame : TreeGame := {| cur := initialNode; past := [] |}.

(* ------------------------------------------------------------------ *)
(** ** More concrete positions *)

Fixpoint setNth {A} (n : nat) (x : A) (l : list A) : list A :=
  match l, n with
  | [], _ => []
  | _ :: t, O => x :: t
  | h :: t, S n' => h :: setNth n' x t
  end.

(** Row and column of a square name such as ["e2"] in [game.board()]. *)
Definition square (s : string) : nat * nat :=
  match s with
  | String f (String r _) =>
      ((8 - (Ascii.nat_of_ascii r - 48))%nat, (Ascii.nat_of_ascii f - 97)%nat)
  | _ => (0%nat, 0%nat)
  end.

Definition put (b : Board) (s : string) (p : option Piece) : Board :=
  let (r, c) := square s in setNth r (setNth c p (nth r b [])) b.

(** The board after a move that is neither castling, en passant nor a
    promotion. *)
Definition played (b : Board) (m : Move) : Board :=
  let (r, c) := square (from m) in
  put (put b (to m) (at2 None b r c)) (from m) None.

Definition emptyBoard : Board := repeat emptyRow 8.

(** Pieces on an empty board. *)
Definition setup (l : list (string * option Piece)) : Board :=
  fold_left (fun b sp => put b (fst sp) (snd sp)) l emptyBoard.

(** A position in which the side to move has the moves [ms], each leading
    to the position that [next] gives. *)
Definition position (b : Board) (t : Color) (ms : list Move)
    (next : Move -> Node) : Node :=
  mkNode b t false false false false (Some (map (fun m => (m, next m)) ms)).

(** King and pawn against king and pawn, Black to move:
    8/7p/8/8/8/8/P7/4K3 with the black king on e8. *)
Definition kpBoard : Board :=
  setup [("e8", bp King); ("h7", bp Pawn); ("a2", wp Pawn); ("e1", wp King)].

Definition kpWhiteMoves : list Move :=
  [quiet Pawn "a2" "a3"; quiet Pawn "a2" "a4";
   quiet King "e1" "d1"; quiet King "e1" "d2"; quiet King "e1" "e2";
   quiet King "e1" "f2"; quiet King "e1" "f1"].

Definition kpBlackMoves : list Move :=
  [quiet King "e8" "f8"; quiet King "e8" "f7"; quiet King "e8" "e7";
   quiet King "e8" "d7"; quiet King "e8" "d8";
   quiet Pawn "h7" "h6"; quiet Pawn "h7" "h5"].

Definition kpNode : Node :=
  position kpBoard Black kpBlackMoves
    (fun m =>
       let b := played kpBoard m in
       position b White kpWhiteMoves (fun m' => stub (played b m') Black)).

Definition kpGame : TreeGame := {| cur := kpNode; past := [] |}.

(** After 1. f3 e5 2. g4, Black to move and mate with Qh4. *)
Definition foolsBoard : Board :=
  played (played (played initialBoard (quiet Pawn "f2" "f3"))
            (quiet Pawn "e7" "e5")) (quiet Pawn "g2" "g4").

Definition Qh4 : Move :=
  {| from := "d8"; to := "h4"; piece := Some Queen; captured := None;
     promotion := None; san := "Qh4#" |}.

Definition foolsMoves : list Move :=
  [quiet Knight "b8" "a6"; quiet Knight "b8" "c6";
   quiet Queen "d8" "e7"; quiet Queen "d8" "f6"; quiet Queen "d8" "g5"; Qh4;
   quiet King "e8" "e7";
   quiet Bishop "f8" "e7"; quiet Bishop "f8" "d6"; quiet Bishop "f8" "c5";
   quiet Bishop "f8" "b4"; quiet Bishop "f8" "a3";
   quiet Knight "g8" "e7"; quiet Knight "g8" "f6"; quiet Knight "g8" "h6";
   quiet Pawn "a7" "a6"; quiet Pawn "a7" "a5";
   quiet Pawn "b7" "b6"; quiet Pawn "b7" "b5";
   quiet Pawn "c7" "c6"; quiet Pawn "c7" "c5";
   quiet Pawn "d7" "d6"; quiet Pawn "d7" "d5";
   quiet Pawn "f7" "f6"; quiet Pawn "f7" "f5";
   quiet Pawn "g7" "g6"; quiet Pawn "g7" "g5";
   quiet Pawn "h7" "h6"; quiet Pawn "h7" "h5";
   quiet Pawn "e5" "e4"].

(** White to move and checkmated. *)
Definition matedNode : Node :=
  mkNode (played foolsBoard Qh4) White true false true false (Some []).

Definition foolsNode : Node :=
  position foolsBoard Black foolsMoves
    (fun m =>
       if Move_eq_dec m Qh4 then matedNode
       else stub (played foolsBoard m) White).

Definition foolsGame : TreeGame := {| cur := foolsNode; past := [] |}.

Definition matedGame : TreeGame := {| cur := matedNode; past := [] |}.

(** A clock that stands still for the first [n] readings and then jumps
    past every deadline of the difficulty table. *)
Definition stalledClock (n : nat) (k : nat) : Z :=
  if (k <=? n)%nat then 0 else 5000.

(* ------------------------------------------------------------------ *)
(** ** Notions used in the statements *)

(** The comparator of [orderMovesSafe], on any key, and the order it
    sorts into. *)
Definition byKey {A} (key : A -> Z) (a b : A) : Z := key b - key a.

Definition descending {A} (key : A -> Z) (a b : A) : Prop := key a >= key b.

(** The signed material of a square, without the table term. *)
Definition squareMaterial (b : Board) (r c : nat) : Z :=
  match at2 None b r c with
  | None => 0
  | Some p =>
      match color p with
      | White => MATERIAL (type p)
      | Black => - MATERIAL (type p)
      end
  end.

Definition materialBalance (b : Board) : Z :=
  fold_left
    (fun acc r =>
       fold_left (fun acc c => acc + squareMaterial b r c) (seq 0 8) acc)
    (seq 0 8) 0.

(** A search function that hands the game object back as it got it. *)
Definition restoring {G} (search : World G -> Num -> Num -> Num * World G)
    : Prop :=
  forall w a b, game (snd (search w a b)) = game w.

(** A budget object one node short of a ceiling of 30. *)
Definition nearCeiling : World TreeGame :=
  {| game := kpGame;
     state := {| nodes := 29; nodeLimit := Some 30; endTime := None |};
     clock := 0 |}.

(** A budget object as [findBestMove] makes it for the moderate profile. *)
Definition freshWorld : World TreeGame :=
  {| game := kpGame;
     state := {| nodes := 0; nodeLimit := Some 20000; endTime := Some 1500 |};
     clock := 1 |}.

(* ------------------------------------------------------------------ *)
(** ** Reference notions for the search *)

(** The order of JS numbers on [Num], and the running maximum and minimum
    as the two loops of [minimaxSafe] update them. *)
Definition nle (a b : Num) : Prop :=
  match a, b with
  | NegInfinity, _ => True
  | _, Infinity => True
  | Fin x, Fin y => x <= y
  | _, _ => False
  end.

Definition nmax (a b : Num) : Num := if num_gt b a then b else a.

Definition nmin (a b : Num) : Num := if num_lt b a then b else a.

(** What a search with the window [alpha, beta] tells about the true value
    [m] when it returns [v]: at or below [alpha] the value is an upper
    bound, at or above [beta] a lower bound, strictly inside it is exact. *)
Definition failSoft (alpha beta v m : Num) : Prop :=
  (nle v alpha -> nle m v)
  /\ (~ nle v alpha -> ~ nle beta v -> v = m)
  /\ (nle beta v -> nle v m).

(** From [w] to [w'] the budget object keeps its ceiling and its deadline,
    and neither the node counter nor the clock count goes back. *)
Definition advances {G} (w w' : World G) : Prop :=
  nodeLimit (state w') = nodeLimit (state w)
  /\ endTime (state w') = endTime (state w)
  /\ nodes (state w) <= nodes (state w')
  /\ (clock w <= clock w')%nat.

Definition advancing {G}
    (search : World G -> Num -> Num -> Num * World G) : Prop :=
  forall w a b, advances w (snd (search w a b)).

Section SearchNotions.

Context {G : Type} `{Chess G}.
Variable now : nat -> Z.

(** Plain minimax to [depth] plies over the legal moves, with the same
    leaves as [minimaxSafe]: depth 0, game over, or no move listed. *)
Fixpoint minimax (depth : nat) (g : G) (maximizing : bool) : Num :=
  match depth with
  | O => Fin (evaluate g)
  | S d =>
      if isGameOver g then Fin (evaluate g)
      else
        match safeMoves g with
        | [] => Fin (evaluate g)
        | ms =>
            if maximizing then
              fold_left (fun b m => nmax b (minimax d (move g m) false))
                ms NegInfinity
            else
              fold_left (fun b m => nmin b (minimax d (move g m) true))
                ms Infinity
        end
  end.

(** The node counter is still below the ceiling (or there is none). *)
Definition within (w : World G) : Prop :=
  match nodeLimit (state w) with
  | Some N => nodes (state w) < N
  | None => True
  end.

(** The deadline is never reached: there is none, or it is 0 (falsy), or
    every reading of the clock is before it. *)
Definition calm (w : World G) : Prop :=
  match endTime (state w) with
  | Some t => t = 0 \/ forall n, now n < t
  | None => True
  end.

(** A recursive call that is sound for the value [cv] of the position it
    is given, whenever its budget is not cut. *)
Definition sound (cv : G -> Num)
    (search : World G -> Num -> Num -> Num * World G) : Prop :=
  forall w a b,
    calm w -> ~ nle b a -> within (snd (search w a b)) ->
    failSoft a b (fst (search w a b)) (cv (game w)).

(** [ahead n g g']: at most [n] legal moves lead from [g] to [g']. *)
Inductive ahead : nat -> G -> G -> Prop :=
| ahead_here (n : nat) (g : G) : ahead n g g
| ahead_move (n : nat) (g : G) (m : Move) (g' : G) :
    In m (safeMoves g) -> ahead n (move g m) g' -> ahead (S n) g g'.

Definition evalAhead (n : nat) (g : G) (v : Num) : Prop :=
  exists g', ahead n g g' /\ v = Fin (evaluate g').

End SearchNotions.

(** The table term of a square as [evaluate] ends up counting it: read at
    the square for White and at the mirrored row for Black, and added for
    both colours. *)
Definition squareTable (b : Board) (r c : nat) : Z :=
  match at2 None b r c with
  | None => 0
  | Some p =>
      match color p with
      | White => at2 0 (PST (type p)) r c
      | Black => at2 0 (PST (type p)) (7 - r) c
      end
  end.

Definition tableBalance (b : Board) : Z :=
  fold_left
    (fun acc r =>
       fold_left (fun acc c => acc + squareTable b r c) (seq 0 8) acc)
    (seq 0 8) 0.

(* ------------------------------------------------------------------ *)
(** ** Helpers of the application (the component that hosts the engine) *)

(** [String.fromCharCode(n)] for a code below 256. *)
Definition fromCharCode (n : nat) : string :=
  String (ascii_of_nat n) EmptyString.

(** [n.toString()] of an integer. *)
Definition toString (z : Z) : string := NilZero.string_of_int (Z.to_int z).

(** [coord(r, c)]: the name of the square at row [r] and column [c]. *)
Definition coord (r c : nat) : string :=
  fromCharCode (97 + c) ++ toString (8 - Z.of_nat r).

(** [s.padStart(n, fill)]: [fill] is repeated, and cut, to make up the
    missing length. *)
Fixpoint padding (k : nat) (fill rest : string) : string :=
  match k with
  | O => ""
  | S k' =>
      match rest with
      | String ch tl => String ch (padding k' fill tl)
      | EmptyString =>
          match fill with
          | String ch tl => String ch (padding k' fill tl)
          | EmptyString => ""
          end
      end
  end.

Definition padStart (n : nat) (fill s : string) : string :=
  padding (n - String.length s) fill fill ++ s.

(** [formatTime(sec)] for an integer number of seconds; [%] is the JS
    remainder, which takes the sign of the dividend. *)
Definition formatTime (sec : Z) : string :=
  let m := padStart 2 "0" (toString (sec / 60)) in
  let s := padStart 2 "0" (toString (Z.rem sec 60)) in
  m ++ ":" ++ s.

(** [a.filter((x, idx) => p(x, idx))] *)
Fixpoint filterFrom {A} (p : A -> nat -> bool) (idx : nat) (a : list A)
    : list A :=
  match a with
  | [] => []
  | x :: rest =>
      if p x idx then x :: filterFrom p (S idx) rest
      else filterFrom p (S idx) rest
  end.

Definition jsFilter {A} (p : A -> nat -> bool) (a : list A) : list A :=
  filterFrom p 0 a.

Definition whiteMoves (moveList : list string) : list string :=
  jsFilter (fun _ idx => (idx mod 2 =? 0)%nat) moveList.

Definition blackMoves (moveList : list string) : list string :=
  jsFilter (fun _ idx => (idx mod 2 =? 1)%nat) moveList.

(** The pause before the computer moves:
    [Math.floor(Math.random() * (maxThink - minThink + 1)) + minThink]. *)
Definition thinkDelay (minThink maxThink : Z) (rnd : Q) : Z :=
  Qfloor (rnd * inject_Z (maxThink - minThink + 1)) + minThink.

(** Reading a clock face "mm:ss" back. *)
Definition digit (ch : ascii) : option Z :=
  let n := nat_of_ascii ch in
  if ((48 <=? n) && (n <=? 57))%nat then Some (Z.of_nat n - 48) else None.

Definition clockValue (s : string) : option Z :=
  match s with
  | String a (String b (String ":" (String c (String d EmptyString)))) =>
      match digit a, digit b, digit c, digit d with
      | Some a, Some b, Some c, Some d =>
          if c <? 6 then Some (600 * a + 60 * b + 10 * c + d) else None
      | _, _, _, _ => None
      end
  | _ => None
  end.

Definition clockRoundTrip (n : nat) : bool :=
  match clockValue (formatTime (Z.of_nat n)) with
  | Some v =>
      (v =? Z.of_nat n)
      && (String.length (formatTime (Z.of_nat n)) =? 5)%nat
  | None => false
  end.

(** Three moves, two of them captures, and a budget object with a ceiling
    and a deadline that a two-ply search does not reach. *)
Definition threeMoves : list Move :=
  [ quiet Pawn "a2" "a3";
    capture Queen Pawn "d1" "d7" "Qxd7";
    capture Pawn Queen "e4" "d5" "exd5" ].

Definition twoKingMoves : list Move :=
  [ quiet King "e1" "e2"; capture King Pawn "e1" "d2" "Kxd2" ].

Definition roomyWorld : World TreeGame :=
  {| game := kpGame;
     state := {| nodes := 0; nodeLimit := Some 20000; endTime := Some 1500 |};
     clock := 0 |}.

(** King against king and rook, Black to move: 8/8/2K5/8/8/8/8/1R6 with the
    black king on a8, whose only legal move is to a7. *)
Definition cornerBoard : Board :=
  setup [("a8", bp King); ("c6", wp King); ("b1", wp Rook)].

Definition Ka7 : Move := quiet King "a8" "a7".

Definition cornerNode : Node :=
  position cornerBoard Black [Ka7]
    (fun m => stub (played cornerBoard m) White).

Definition cornerGame : TreeGame := {| cur := cornerNode; past := [] |}.


(* ================================================================== *)
(** * Properties *)

(** ** The game-tree collaborator keeps the law *)

Lemma child_listed (m : Move) (l : list (Move * Node)) :
  In m (map fst l) -> exists n, child m l = Some n.
Proof.
  induction l as [|[m' n] rest IH]; simpl; [tauto|].
  intros [->|Hin].
  - destruct (Move_eq_dec m m) as [_|ne]; [eauto | contradiction].
  - destruct (Move_eq_dec m m'); eauto.
Qed.

#[export] Instance TreeLaws : ChessLaws TreeGame.
Proof.
  constructor. intros [c p] m. unfold safeMoves. simpl.
  unfold treeMove. simpl.
  destruct (nMoves c) as [l|]; simpl; [|tauto].
  intros Hin. destruct (child_listed m l Hin) as [n ->]. reflexivity.
Qed.

(* ------------------------------------------------------------------ *)
(** * Move ordering *)

Section SortByKey.

Variable A : Type.
Variable key : A -> Z.

Lemma jsInsert_perm (cmp : A -> A -> Z) (x : A) (l : list A) :
  Permutation (x :: l) (jsInsert cmp x l).
Proof.
  induction l as [|y ys IH]; simpl.
  - apply Permutation_refl.
  - destruct (cmp x y <=? 0).
    + apply Permutation_refl.
    + apply perm_trans with (y :: x :: ys).
      * apply perm_swap.
      * apply perm_skip, IH.
Qed.

Lemma jsSort_perm (cmp : A -> A -> Z) (l : list A) :
  Permutation l (jsSort cmp l).
Proof.
  induction l as [|x xs IH]; simpl.
  - apply perm_nil.
  - apply perm_trans with (x :: jsSort cmp xs).
    + apply perm_skip, IH.
    + apply jsInsert_perm.
Qed.

Lemma jsInsert_sorted (x : A) (l : list A) :
  StronglySorted (descending key) l ->
  StronglySorted (descending key) (jsInsert (byKey key) x l).
Proof.
  induction 1 as [|y ys Hs IH Hall]; simpl.
  - repeat constructor.
  - unfold byKey at 1. destruct (Z.leb_spec (key y - key x) 0) as [Hle|Hgt].
    + constructor; [constructor; assumption|].
      constructor; [unfold descending; lia|].
      eapply Forall_impl; [|exact Hall].
      unfold descending. intros z Hz. lia.
    + constructor; [exact IH|].
      eapply Permutation_Forall; [apply jsInsert_perm|].
      constructor; [unfold descending; lia | exact Hall].
Qed.

Lemma jsSort_sorted (l : list A) :
  StronglySorted (descending key) (jsSort (byKey key) l).
Proof.
  induction l as [|x xs IH]; simpl.
  - constructor.
  - apply jsInsert_sorted, IH.
Qed.

(** Stability: the elements of one key come out in the order they went in. *)
Lemma jsInsert_class (k : Z) (x : A) (l : list A) :
  filter (fun a => key a =? k) (jsInsert (byKey key) x l)
  = filter (fun a => key a =? k) (x :: l).
Proof.
  induction l as [|y ys IH]; simpl; [reflexivity|].
  unfold byKey at 1. destruct (Z.leb_spec (key y - key x) 0) as [Hle|Hgt].
  - reflexivity.
  - simpl. rewrite IH. simpl.
    destruct (Z.eqb_spec (key x) k) as [Hx|Hx];
      destruct (Z.eqb_spec (key y) k) as [Hy|Hy]; try reflexivity.
    lia.
Qed.

Lemma jsSort_class (k : Z) (l : list A) :
  filter (fun a => key a =? k) (jsSort (byKey key) l)
  = filter (fun a => key a =? k) l.
Proof.
  induction l as [|x xs IH]; simpl; [reflexivity|].
  rewrite jsInsert_class. simpl. rewrite IH. reflexivity.
Qed.

(** The two properties pin the result down: whatever algorithm the engine's
    built-in sort runs, a sorted list that keeps every class of equal keys
    in input order is the list [jsSort] returns. *)
Lemma head_dominates (x : A) (l : list A) (z : A) :
  StronglySorted (descending key) (x :: l) -> In z (x :: l) -> key x >= key z.
Proof.
  intros Hs Hin. apply StronglySorted_inv in Hs. destruct Hs as [_ Hall].
  destruct Hin as [<- | Hin]; [lia|].
  rewrite Forall_forall in Hall. apply Hall, Hin.
Qed.

Lemma in_class (k : Z) (z : A) (l1 l2 : list A) :
  filter (fun a => key a =? k) l1 = filter (fun a => key a =? k) l2 ->
  In z l1 -> key z = k -> In z l2.
Proof.
  intros Hcl Hin Hk.
  assert (Hf : In z (filter (fun a => key a =? k) l1)).
  { apply filter_In. split; [exact Hin | now apply Z.eqb_eq]. }
  rewrite Hcl in Hf. now apply filter_In in Hf.
Qed.

Lemma sorted_stable_unique (l1 : list A) :
  forall l2,
    StronglySorted (descending key) l1 ->
    StronglySorted (descending key) l2 ->
    (forall k, filter (fun a => key a =? k) l1
               = filter (fun a => key a =? k) l2) ->
    l1 = l2.
Proof.
  induction l1 as [|x t1 IH]; intros [|y t2] H1 H2 Hcl.
  - reflexivity.
  - specialize (Hcl (key y)). simpl in Hcl. rewrite Z.eqb_refl in Hcl.
    discriminate.
  - specialize (Hcl (key x)). simpl in Hcl. rewrite Z.eqb_refl in Hcl.
    discriminate.
  - assert (Hxy : key x = key y).
    { assert (key y >= key x).
      { apply head_dominates with t2; [exact H2|].
        apply in_class with (key x) (x :: t1); auto. now left. }
      assert (key x >= key y).
      { apply head_dominates with t1; [exact H1|].
        apply in_class with (key y) (y :: t2); auto. now left. }
      lia. }
    assert (Hhead : x = y).
    { specialize (Hcl (key x)). simpl in Hcl.
      rewrite Z.eqb_refl in Hcl. rewrite <- Hxy, Z.eqb_refl in Hcl.
      congruence. }
    subst y. f_equal.
    apply IH.
    + now apply StronglySorted_inv in H1.
    + now apply StronglySorted_inv in H2.
    + intros k. specialize (Hcl k). simpl in Hcl.
      destruct (key x =? k); congruence.
Qed.

Lemma jsSort_any_stable_sort (l out : list A) :
  StronglySorted (descending key) out ->
  (forall k, filter (fun a => key a =? k) out
             = filter (fun a => key a =? k) l) ->
  out = jsSort (byKey key) l.
Proof.
  intros Hs Hcl. apply sorted_stable_unique.
  - exact Hs.
  - apply jsSort_sorted.
  - intros k. now rewrite jsSort_class.
Qed.

End SortByKey.

Lemma jsInsert_map {A B} (f : A -> B) (cmp : B -> B -> Z) (x : A) (l : list A) :
  jsInsert cmp (f x) (map f l)
  = map f (jsInsert (fun a b => cmp (f a) (f b)) x l).
Proof.
  induction l as [|y ys IH]; simpl; [reflexivity|].
  destruct (cmp (f x) (f y) <=? 0); simpl; [reflexivity|].
  now rewrite IH.
Qed.

Lemma jsSort_map {A B} (f : A -> B) (cmp : B -> B -> Z) (l : list A) :
  jsSort cmp (map f l) = map f (jsSort (fun a b => cmp (f a) (f b)) l).
Proof.
  induction l as [|x xs IH]; simpl; [reflexivity|].
  now rewrite IH, jsInsert_map.
Qed.

(** The wrapping in [{ mv, score }] objects and the unwrapping cancel:
    the moves are sorted on [moveScore]. *)
Lemma orderMovesSafe_sort (moves : list Move) :
  orderMovesSafe moves = jsSort (byKey moveScore) moves.
Proof.
  unfold orderMovesSafe. rewrite jsSort_map, map_map. simpl.
  apply map_id.
Qed.

Lemma orderMovesSafe_perm (moves : list Move) :
  Permutation moves (orderMovesSafe moves).
Proof. rewrite orderMovesSafe_sort. apply jsSort_perm. Qed.

Example orderMovesSafe_captures_first :
  map san
    (orderMovesSafe
       [ quiet King "e1" "e2"; quiet Pawn "a2" "a3";
         capture Queen Pawn "d1" "d7" "Qxd7"; quiet Pawn "b2" "b3";
         capture Pawn Queen "e4" "d5" "exd5" ])
  = ["exd5"; "Qxd7"; "a3"; "b3"; "Ke2"].
Proof. vm_compute. reflexivity. Qed.

(** The score is the one the specification gives, with [getValue] for the
    value of a piece that may be absent. *)
Lemma moveScore_spec (m : Move) :
  moveScore m = 10 * getValue (captured m) - getValue (piece m).
Proof.
  unfold moveScore, getValue. destruct (captured m), (piece m); lia.
Qed.

(** C6: [orderMovesSafe] returns a permutation of its input, sorted
    non-increasing on the score 10 x (value of the captured piece, 0 if
    none) - (value of the moving piece), in which the moves of equal score
    keep the order they had in the input. *)
Theorem orderMovesSafe_stable_sort (moves : list Move) :
  Permutation moves (orderMovesSafe moves)
  /\ StronglySorted
       (fun a b =>
          10 * getValue (captured a) - getValue (piece a)
          >= 10 * getValue (captured b) - getValue (piece b))
       (orderMovesSafe moves)
  /\ forall k : Z,
       filter (fun m => moveScore m =? k) (orderMovesSafe moves)
       = filter (fun m => moveScore m =? k) moves.
Proof.
  rewrite orderMovesSafe_sort. repeat split.
  - apply jsSort_perm.
  - generalize (jsSort_sorted moveScore moves).
    apply StronglySorted_ind with
      (P := fun l => StronglySorted
         (fun a b =>
            10 * getValue (captured a) - getValue (piece a)
            >= 10 * getValue (captured b) - getValue (piece b)) l).
    + constructor.
    + intros a l _ IH Hall. constructor; [exact IH|].
      eapply Forall_impl; [|exact Hall].
      unfold descending. intros b. now rewrite !moveScore_spec.
  - intros k. apply jsSort_class.
Qed.

(* ------------------------------------------------------------------ *)
(** * Static evaluation *)

Section Evaluate.

Context {G : Type} `{Chess G}.

(** C9: in a position where the side to move is checkmated, [evaluate]
    returns the mate sentinel, negative when White is the side to move and
    positive when Black is. *)
Theorem evaluate_checkmate (g : G) :
  isCheckmate g = true ->
  evaluate g = match turn g with
               | White => - 100000
               | Black => 100000
               end
  /\ MATE_SCORE = 100000.
Proof.
  intros Hmate. unfold evaluate. rewrite Hmate.
  split; [destruct (turn g)|]; reflexivity.
Qed.

(** Past the terminal checks [evaluate] is the board sum plus twice the
    number of legal moves, counted for the side to move only. *)
Lemma evaluate_running (g : G) :
  isCheckmate g = false -> isDraw g = false -> isThreefold g = false ->
  evaluate g
  = boardScore (board g)
    + match turn g with
      | White => 2 * Z.of_nat (List.length (safeMoves g))
      | Black => - (2 * Z.of_nat (List.length (safeMoves g)))
      end.
Proof.
  intros Hm Hd Ht. unfold evaluate. rewrite Hm, Hd, Ht. cbn [orb].
  generalize (boardScore (board g)) (Z.of_nat (List.length (safeMoves g))).
  intros s n. destruct (turn g); lia.
Qed.

(** C4, as the code has it: at the initial position the material cancels
    and White, who is to move, is credited twice its twenty legal moves,
    so [evaluate] returns the board sum plus 40. *)
Theorem evaluate_initial (g : G) :
  board g = initialBoard -> turn g = White ->
  isCheckmate g = false -> isDraw g = false -> isThreefold g = false ->
  List.length (safeMoves g) = 20%nat ->
  evaluate g = boardScore initialBoard + 40
  /\ materialBalance initialBoard = 0.
Proof.
  intros Hb Ht Hm Hd Hr Hn.
  rewrite evaluate_running by assumption.
  rewrite Hb, Ht, Hn. split.
  - change (2 * Z.of_nat 20) with 40. reflexivity.
  - vm_compute. reflexivity.
Qed.

End Evaluate.

Lemma evaluate_initial_witness :
  evaluate newGame = boardScore initialBoard + 40
  /\ materialBalance initialBoard = 0.
Proof.
  apply (evaluate_initial newGame); vm_compute; reflexivity.
Defined.

(** C4 as the specification states it fails: the initial position is not
    scored 0. *)
Lemma initial_position_not_zero :
  board newGame = initialBoard /\ turn newGame = White
  /\ List.length (safeMoves newGame) = 20%nat
  /\ evaluate newGame = -150 /\ evaluate newGame <> 0.
Proof.
  repeat split; try (vm_compute; reflexivity).
  vm_compute. discriminate.
Qed.

Lemma evaluate_checkmate_witness :
  evaluate matedGame = - 100000 /\ MATE_SCORE = 100000.
Proof.
  exact (evaluate_checkmate matedGame eq_refl).
Defined.

(* ------------------------------------------------------------------ *)
(** * The search *)

Section Search.

Context {G : Type} `{Chess G}.
Variable now : nat -> Z.

Lemma timeUp_game (w : World G) : game (snd (timeUp now w)) = game w.
Proof.
  unfold timeUp. destruct (endTime (state w)) as [t|]; [|reflexivity].
  destruct (t =? 0); reflexivity.
Qed.

Lemma ordered_legal (g : G) (m : Move) :
  In m (orderMovesSafe (safeMoves g)) -> In m (safeMoves g).
Proof.
  apply Permutation_in, Permutation_sym, orderMovesSafe_perm.
Qed.

Lemma minimaxSafe_leaf (w : World G) (alpha beta : Num) (maximizing : bool) :
  fst (minimaxSafe now 0 w alpha beta maximizing) = Fin (evaluate (game w))
  /\ game (snd (minimaxSafe now 0 w alpha beta maximizing)) = game w.
Proof.
  simpl. destruct (overLimit (bump w)); [split; reflexivity|].
  pose proof (timeUp_game (bump w)) as Hg.
  destruct (timeUp now (bump w)) as [late w1]. simpl in Hg.
  destruct late; simpl; rewrite Hg; split; reflexivity.
Qed.

(** C7: at depth 0 the search returns [evaluate] of the position, whatever
    the window, the flag and the budget are, and leaves the game object as
    it found it. *)
Theorem minimaxSafe_depth_zero (w : World G) (alpha beta : Num)
    (maximizing : bool) :
  fst (minimaxSafe now 0 w alpha beta maximizing) = Fin (evaluate (game w))
  /\ game (snd (minimaxSafe now 0 w alpha beta maximizing)) = game w.
Proof. apply minimaxSafe_leaf. Qed.

(** C8: a call that finds the counter at the ceiling after its own
    increment returns [evaluate] of the position at once: no move is
    applied, the clock is not read, nothing but the counter changes.  When
    the call was entered below the ceiling [N], the counter stands at
    exactly [N] at that return. *)
Theorem minimaxSafe_node_ceiling (depth : nat) (w : World G)
    (alpha beta : Num) (maximizing : bool) (N : Z) :
  nodeLimit (state w) = Some N ->
  nodes (state w) + 1 >= N ->
  minimaxSafe now depth w alpha beta maximizing
  = (Fin (evaluate (game w)), bump w)
  /\ game (bump w) = game w
  /\ clock (bump w) = clock w
  /\ (nodes (state w) < N -> nodes (state (bump w)) = N).
Proof.
  intros Hlim Hge.
  assert (Hover : overLimit (bump w) = true).
  { unfold overLimit. simpl. rewrite Hlim. apply Z.geb_le. lia. }
  repeat split.
  - destruct depth; simpl; rewrite Hover; reflexivity.
  - simpl. lia.
Qed.

Section Balance.

Context `{!ChessLaws G}.

Lemma apply_undo (w : World G) (m : Move) (w1 : World G) :
  In m (safeMoves (game w)) ->
  game w1 = game (applyMove w m) ->
  game (undoMove w1) = game w.
Proof.
  intros Hin Hw1. simpl. rewrite Hw1. simpl. now apply undo_move.
Qed.

Lemma maxLoop_game search (ms : list Move) :
  restoring search ->
  forall best alpha beta (w : World G),
    (forall m, In m ms -> In m (safeMoves (game w))) ->
    game (snd (maxLoop search ms best alpha beta w)) = game w.
Proof.
  intros Hs. induction ms as [|m rest IH]; intros best alpha beta w Hin.
  - reflexivity.
  - simpl. pose proof (Hs (applyMove w m) alpha beta) as Hg.
    destruct (search (applyMove w m) alpha beta) as [val w1]. simpl in Hg.
    assert (Hback : game (undoMove w1) = game w).
    { apply apply_undo with m; [apply Hin; now left | exact Hg]. }
    destruct (num_ge _ beta); [exact Hback|].
    rewrite IH; [exact Hback|].
    intros m' Hm'. rewrite Hback. apply Hin. now right.
Qed.

Lemma minLoop_game search (ms : list Move) :
  restoring search ->
  forall best alpha beta (w : World G),
    (forall m, In m ms -> In m (safeMoves (game w))) ->
    game (snd (minLoop search ms best alpha beta w)) = game w.
Proof.
  intros Hs. induction ms as [|m rest IH]; intros best alpha beta w Hin.
  - reflexivity.
  - simpl. pose proof (Hs (applyMove w m) alpha beta) as Hg.
    destruct (search (applyMove w m) alpha beta) as [val w1]. simpl in Hg.
    assert (Hback : game (undoMove w1) = game w).
    { apply apply_undo with m; [apply Hin; now left | exact Hg]. }
    destruct (num_ge alpha _); [exact Hback|].
    rewrite IH; [exact Hback|].
    intros m' Hm'. rewrite Hback. apply Hin. now right.
Qed.

Lemma minimaxSafe_game (depth : nat) :
  forall (w : World G) alpha beta maximizing,
    game (snd (minimaxSafe now depth w alpha beta maximizing)) = game w.
Proof.
  induction depth as [|d IH]; intros w alpha beta maximizing.
  - apply minimaxSafe_leaf.
  - simpl. destruct (overLimit (bump w)); [reflexivity|].
    pose proof (timeUp_game (bump w)) as Hg.
    destruct (timeUp now (bump w)) as [late w1]. simpl in Hg.
    destruct late; [exact Hg|].
    destruct (isGameOver (game w1)); [exact Hg|].
    destruct (orderMovesSafe (safeMoves (game w1))) as [|m ms] eqn:Hms;
      [exact Hg|].
    assert (Hin : forall m', In m' (m :: ms) -> In m' (safeMoves (game w1))).
    { intros m' Hm'. apply ordered_legal. now rewrite Hms. }
    destruct maximizing.
    + rewrite maxLoop_game; [exact Hg | | exact Hin].
      intros w' a b. apply IH.
    + rewrite minLoop_game; [exact Hg | | exact Hin].
      intros w' a b. apply IH.
Qed.

Lemma rootLoop_game (d : nat) (ms : list Move) :
  forall depthBest depthBestEval (w : World G),
    (forall m, In m ms -> In m (safeMoves (game w))) ->
    game (snd (rootLoop now d ms depthBest depthBestEval w)) = game w.
Proof.
  induction ms as [|m rest IH]; intros depthBest depthBestEval w Hin.
  - reflexivity.
  - simpl.
    pose proof (minimaxSafe_game (d - 1) (applyMove w m)
                  NegInfinity Infinity true) as Hg.
    destruct (minimaxSafe now (d - 1) (applyMove w m) NegInfinity Infinity true)
      as [val w1]. simpl in Hg.
    assert (Hback : game (undoMove w1) = game w).
    { apply apply_undo with m; [apply Hin; now left | exact Hg]. }
    destruct (if num_lt val depthBestEval then (m, val)
              else (depthBest, depthBestEval)) as [db dbe].
    pose proof (timeUp_game (undoMove w1)) as Ht.
    destruct (timeUp now (undoMove w1)) as [late w3]. cbn [snd] in Ht.
    rewrite Hback in Ht.
    destruct late; [exact Ht|].
    rewrite IH; [exact Ht|].
    intros m' Hm'. rewrite Ht. apply Hin. now right.
Qed.

Lemma deepen_game (limit deadline : option Z) (ms : list Move) (n : nat) :
  forall d best bestEval (g : G) clk,
    (forall m, In m ms -> In m (safeMoves g)) ->
    snd (fst (deepen now n d limit deadline ms best bestEval g clk)) = g.
Proof.
  induction n as [|n IH]; intros d best bestEval g clk Hin.
  - reflexivity.
  - simpl.
    match goal with
    | |- context [rootLoop now d ms best bestEval ?w0] =>
        pose proof (rootLoop_game d ms best bestEval w0 Hin) as Hg;
        destruct (rootLoop now d ms best bestEval w0) as [[db dbe] w1]
    end.
    simpl in Hg.
    pose proof (timeUp_game w1) as Ht.
    destruct (timeUp now w1) as [late w2]. cbn [snd] in Ht.
    rewrite Hg in Ht.
    destruct late; [exact Ht|].
    rewrite IH; [exact Ht|].
    now rewrite Ht.
Qed.

Lemma mateInOne_law (ms : list Move) (g : G) :
  (forall m, In m ms -> In m (safeMoves g)) ->
  mateInOne ms g = (find (fun m => isCheckmate (move g m)) ms, g).
Proof.
  induction ms as [|m rest IH]; intros Hin; simpl; [reflexivity|].
  rewrite (undo_move g m) by (apply Hin; now left).
  destruct (isCheckmate (move g m)); [reflexivity|].
  apply IH. intros m' Hm'. apply Hin. now right.
Qed.

End Balance.

(** *** Which move the root loops hold *)

Lemma rootLoop_best (d : nat) (ms : list Move) :
  forall depthBest depthBestEval (w : World G),
    let b := fst (fst (rootLoop now d ms depthBest depthBestEval w)) in
    b = depthBest \/ In b ms.
Proof.
  induction ms as [|m rest IH]; intros depthBest depthBestEval w; simpl.
  - now left.
  - destruct (minimaxSafe now (d - 1) (applyMove w m) NegInfinity Infinity true)
      as [val w1].
    destruct (timeUp now (undoMove w1)) as [late w3].
    destruct (num_lt val depthBestEval); destruct late; simpl; auto;
      match goal with
      | |- context [rootLoop now d rest ?b ?e ?w'] =>
          destruct (IH b e w') as [->|Hr]; auto
      end.
Qed.

Lemma deepen_best (limit deadline : option Z) (ms : list Move) (n : nat) :
  forall d best bestEval (g : G) clk,
    let b :=
      fst (fst (fst (deepen now n d limit deadline ms best bestEval g clk))) in
    b = best \/ In b ms.
Proof.
  induction n as [|n IH]; intros d best bestEval g clk; simpl.
  - now left.
  - match goal with
    | |- context [rootLoop now d ms best bestEval ?w0] =>
        pose proof (rootLoop_best d ms best bestEval w0) as Hb;
        destruct (rootLoop now d ms best bestEval w0) as [[db dbe] w1]
    end.
    simpl in Hb.
    destruct (timeUp now w1) as [late w2].
    destruct late; simpl; [exact Hb|].
    match goal with
    | |- context [deepen now n ?d' limit deadline ms db dbe ?g' ?c'] =>
        destruct (IH d' db dbe g' c') as [->|Hr]; auto
    end.
Qed.

Lemma mateInOne_some (ms : list Move) :
  forall (g : G) m, fst (mateInOne ms g) = Some m -> In m ms.
Proof.
  induction ms as [|m0 rest IH]; intros g m; simpl; [discriminate|].
  destruct (isCheckmate (move g m0)); simpl.
  - intros [= ->]. now left.
  - intros Hm. right. eapply IH, Hm.
Qed.

End Search.

(* ------------------------------------------------------------------ *)
(** * The final pick *)

Lemma Qfloor_unit_range (x : Q) (k : Z) :
  (0 <= x)%Q -> (x < inject_Z k)%Q -> 0 <= Qfloor x < k.
Proof.
  intros H0 Hk. split.
  - change 0 with (Qfloor 0). now apply Qfloor_resp_le.
  - rewrite Zlt_Qlt. eapply Qle_lt_trans; [apply Qfloor_le | exact Hk].
Qed.

(** On a list that holds the same entry twice, every index the random
    draw can produce selects that entry. *)
Lemma choose_duplicate (x : Scored Num) (r : option Q) (rnd : Q) :
  (forall q, r = Some q -> (0 <= q <= 1)%Q) -> (0 <= rnd < 1)%Q ->
  chooseMoveWithRandomness [x; x] r rnd = Some (mv x).
Proof.
  intros Hr [Hlo Hhi]. unfold chooseMoveWithRandomness.
  destruct r as [q|]; [|reflexivity].
  destruct (Qeq_bool q 0); [reflexivity|].
  cbn [orb List.length Nat.leb].
  destruct (Hr q eq_refl) as [Hq0 Hq1].
  set (k := Z.max 1 (Math_round (inject_Z (Z.of_nat 2) * q)) - 1).
  assert (Hk : k = 0 \/ k = 1).
  { assert (Math_round (inject_Z (Z.of_nat 2) * q) <= 2).
    { unfold Math_round.
      apply Z.le_trans with (Qfloor (5 # 2)); [|vm_compute; discriminate].
      apply Qfloor_resp_le. change (inject_Z (Z.of_nat 2)) with 2%Q. lra. }
    unfold k. lia. }
  clearbody k.
  assert (Hidx : 0 <= Qfloor (rnd * inject_Z (k + 1)) < k + 1).
  { destruct Hk as [-> | ->].
    - change (inject_Z (0 + 1)) with 1%Q.
      apply (@Qfloor_unit_range (rnd * 1)%Q 1);
        [|change (inject_Z 1) with 1%Q]; lra.
    - change (inject_Z (1 + 1)) with 2%Q.
      apply (@Qfloor_unit_range (rnd * 2)%Q 2);
        [|change (inject_Z 2) with 2%Q]; lra. }
  set (idx := Qfloor (rnd * inject_Z (k + 1))) in *.
  assert (Hc : idx = 0 \/ idx = 1) by lia.
  destruct Hc as [-> | ->]; reflexivity.
Qed.

(** Whatever name is looked up, the randomness of the profile in use is
    undefined or a fraction between 0 and 1. *)
Lemma config_randomness (difficulty : string) (q : Q) :
  cfg_randomness
    (match DIFFICULTY_CONFIG difficulty with
     | Some c => c
     | None => moderate
     end) = Some q ->
  (0 <= q <= 1)%Q.
Proof.
  unfold DIFFICULTY_CONFIG.
  repeat match goal with
         | |- context [if ?b then _ else _] => destruct b
         end;
    simpl; intros E; inversion E; subst; split; vm_compute; discriminate.
Qed.

(* ------------------------------------------------------------------ *)
(** * findBestMove *)

Section Root.

Context {G : Type} `{Chess G}.
Variable now : nat -> Z.

Lemma ordered_none (g : G) :
  orderMovesSafe (safeMoves g) = [] -> safeMoves g = [].
Proof.
  intros E. apply Permutation_nil, Permutation_sym.
  rewrite <- E. apply orderMovesSafe_perm.
Qed.

(** Past the two early returns and the mate loop, the answer is the move
    that iterative deepening holds, whatever is drawn. *)
Lemma findBestMove_searching (g : G) (difficulty : string) (clk : nat)
    (rnd : Q) (first : Move) (rest : list Move) (g1 : G) :
  (0 <= rnd < 1)%Q ->
  isCheckmate g || isDraw g = false ->
  orderMovesSafe (safeMoves g) = first :: rest ->
  mateInOne (first :: rest) g = (None, g1) ->
  exists limit deadline n clk1,
    findBestMove now g difficulty clk rnd
    = (let '(best, _, g2, clk2) :=
         deepen now n 1 limit deadline (first :: rest) first Infinity g1 clk1
       in (Chosen best, g2, clk2))
    /\ (forall rnd', (0 <= rnd' < 1)%Q ->
          findBestMove now g difficulty clk rnd'
          = findBestMove now g difficulty clk rnd).
Proof.
  intros Hrnd Hterm Hms Hmate.
  assert (Hshape : forall r, (0 <= r < 1)%Q ->
    findBestMove now g difficulty clk r
    = (let '(best, _, g2, clk2) :=
         deepen now
           (match cfg_depth (match DIFFICULTY_CONFIG difficulty with
                             | Some c => c | None => moderate end) with
            | Some n => n | None => O end) 1
           (cfg_nodeLimit (match DIFFICULTY_CONFIG difficulty with
                           | Some c => c | None => moderate end))
           (fst (match cfg_timeMs (match DIFFICULTY_CONFIG difficulty with
                                   | Some c => c | None => moderate end) with
                 | Some t => if t =? 0 then (None, clk)
                             else (Some (now clk + t), S clk)
                 | None => (None, clk) end))
           (first :: rest) first Infinity g1
           (snd (match cfg_timeMs (match DIFFICULTY_CONFIG difficulty with
                                   | Some c => c | None => moderate end) with
                 | Some t => if t =? 0 then (None, clk)
                             else (Some (now clk + t), S clk)
                 | None => (None, clk) end))
       in (Chosen best, g2, clk2))).
  { intros r Hr. unfold findBestMove. rewrite Hterm, Hms, Hmate.
    pose proof (config_randomness difficulty) as Hq.
    destruct (match DIFFICULTY_CONFIG difficulty with
              | Some c => c | None => moderate end) as [cd cl cr ct].
    cbn [cfg_depth cfg_nodeLimit cfg_randomness cfg_timeMs] in *.
    destruct (match ct with
              | Some t => if t =? 0 then (None, clk)
                          else (Some (now clk + t), S clk)
              | None => (None, clk) end) as [deadline clk1].
    cbn [fst snd].
    destruct (deepen now _ 1 cl deadline (first :: rest) first Infinity g1 clk1)
      as [[[best bestEval] g2] clk2].
    rewrite choose_duplicate; [reflexivity | exact Hq | exact Hr]. }
  do 4 eexists. split.
  - apply (Hshape rnd Hrnd).
  - intros rnd' Hrnd'. now rewrite (Hshape rnd' Hrnd'), (Hshape rnd Hrnd).
Qed.

(** C2: the move that [findBestMove] returns does not depend on what
    [Math.random()] draws.  The final pick is made on a list that holds the
    best move of iterative deepening twice, so for every randomness
    fraction it returns that move; two runs that differ only in the draw
    return the same answer. *)
Theorem findBestMove_ignores_random (g : G) (difficulty : string)
    (clk : nat) (r1 r2 : Q) :
  (0 <= r1 < 1)%Q -> (0 <= r2 < 1)%Q ->
  findBestMove now g difficulty clk r1 = findBestMove now g difficulty clk r2
  /\ forall (best : Move) (bestEval : Num) (randomness : Q),
       (0 <= randomness <= 1)%Q ->
       chooseMoveWithRandomness
         [ {| mv := best; score := bestEval |};
           {| mv := best; score := bestEval |} ] (Some randomness) r1
       = Some best.
Proof.
  intros H1 H2. split.
  - destruct (isCheckmate g || isDraw g) eqn:Hterm.
    { unfold findBestMove. now rewrite Hterm. }
    destruct (orderMovesSafe (safeMoves g)) as [|first rest] eqn:Hms.
    { unfold findBestMove. now rewrite Hterm, Hms. }
    destruct (mateInOne (first :: rest) g) as [[m|] g1] eqn:Hmate.
    { unfold findBestMove. now rewrite Hterm, Hms, Hmate. }
    destruct (@findBestMove_searching g difficulty clk r2 first rest g1
                H2 Hterm Hms Hmate)
      as (limit & deadline & n & clk1 & _ & Hsame).
    apply Hsame, H1.
  - intros best bestEval q Hq.
    rewrite choose_duplicate; [reflexivity | | exact H1].
    intros q' [= <-]. exact Hq.
Qed.

(** C3: [findBestMove] returns null exactly when the position is checkmate
    or a draw on entry, and a legal move in every other case.  The rules of
    the game enter through one fact about the position: without a legal
    move it is checkmate or stalemate, and stalemate is a draw. *)
Theorem findBestMove_null_iff (g : G) (difficulty : string) (clk : nat)
    (rnd : Q) :
  (safeMoves g = [] -> isCheckmate g = true \/ isDraw g = true) ->
  (0 <= rnd < 1)%Q ->
  (fst (fst (findBestMove now g difficulty clk rnd)) = Null
   <-> isCheckmate g = true \/ isDraw g = true)
  /\ (isCheckmate g = false -> isDraw g = false ->
      exists m, fst (fst (findBestMove now g difficulty clk rnd)) = Chosen m
                /\ In m (safeMoves g)).
Proof.
  intros Hrules Hrnd.
  assert (Hfound : isCheckmate g || isDraw g = false ->
    exists m, fst (fst (findBestMove now g difficulty clk rnd)) = Chosen m
              /\ In m (safeMoves g)).
  { intros Hterm.
    destruct (orderMovesSafe (safeMoves g)) as [|first rest] eqn:Hms.
    { apply ordered_none, Hrules in Hms.
      apply orb_false_elim in Hterm. destruct Hterm as [Hc Hd].
      destruct Hms; congruence. }
    assert (Hlegal : forall m, In m (first :: rest) -> In m (safeMoves g)).
    { intros m Hm. apply ordered_legal. now rewrite Hms. }
    destruct (mateInOne (first :: rest) g) as [[m|] g1] eqn:Hmate.
    { exists m. split.
      - unfold findBestMove. now rewrite Hterm, Hms, Hmate.
      - apply Hlegal, mateInOne_some with g. now rewrite Hmate. }
    destruct (@findBestMove_searching g difficulty clk rnd first rest g1
                Hrnd Hterm Hms Hmate)
      as (limit & deadline & n & clk1 & -> & _).
    pose proof (deepen_best now limit deadline (first :: rest) n 1
                  first Infinity g1 clk1) as Hbest.
    destruct (deepen now n 1 limit deadline (first :: rest) first Infinity
                g1 clk1) as [[[best bestEval] g2] clk2].
    cbn [fst] in *. exists best. split; [reflexivity|].
    apply Hlegal. destruct Hbest as [-> | Hin]; [now left | exact Hin]. }
  split; [split|].
  - intros Hnull. destruct (isCheckmate g) eqn:Hc; [now left|].
    destruct (isDraw g) eqn:Hd; [now right|].
    destruct (Hfound eq_refl) as (m & Hm & _). congruence.
  - intros Hterm. unfold findBestMove.
    destruct Hterm as [-> | ->]; [|rewrite orb_true_r]; reflexivity.
  - intros Hc Hd. apply Hfound. now rewrite Hc, Hd.
Qed.

Section RootBalance.

Context `{!ChessLaws G}.

Lemma findBestMove_game (g : G) (difficulty : string) (clk : nat) (rnd : Q) :
  snd (fst (findBestMove now g difficulty clk rnd)) = g.
Proof.
  unfold findBestMove.
  destruct (isCheckmate g || isDraw g); [reflexivity|].
  destruct (orderMovesSafe (safeMoves g)) as [|first rest] eqn:Hms;
    [reflexivity|].
  assert (Hlegal : forall m, In m (first :: rest) -> In m (safeMoves g)).
  { intros m Hm. apply ordered_legal. now rewrite Hms. }
  rewrite (mateInOne_law _ g Hlegal).
  destruct (find _ (first :: rest)); [reflexivity|].
  destruct (match cfg_timeMs _ with
            | Some t => if t =? 0 then (None, clk)
                        else (Some (now clk + t), S clk)
            | None => (None, clk) end) as [deadline clk1].
  match goal with
  | |- context [deepen now ?n 1 ?l deadline (first :: rest) first Infinity g clk1] =>
      pose proof (deepen_game now l deadline (first :: rest) n 1
                    first Infinity g clk1 Hlegal) as Hg;
      destruct (deepen now n 1 l deadline (first :: rest) first Infinity g clk1)
        as [[[best bestEval] g2] clk2]
  end.
  exact Hg.
Qed.

(** C1: the search and [findBestMove] hand the position back as they got
    it, on every path: every move applied is taken back, also where a loop
    is left by a cutoff and where a budget ends the descent.  So every
    serialisation of the position reads the same before and after. *)
Theorem search_restores_position :
  (forall (depth : nat) (w : World G) (alpha beta : Num) (maximizing : bool),
     game (snd (minimaxSafe now depth w alpha beta maximizing)) = game w)
  /\ (forall (g : G) (difficulty : string) (clk : nat) (rnd : Q),
        snd (fst (findBestMove now g difficulty clk rnd)) = g)
  /\ (forall (fen : G -> string),
        (forall depth w alpha beta maximizing,
           fen (game (snd (minimaxSafe now depth w alpha beta maximizing)))
           = fen (game w))
        /\ (forall g difficulty clk rnd,
              fen (snd (fst (findBestMove now g difficulty clk rnd)))
              = fen g)).
Proof.
  split; [|split; [|intros fen; split]].
  - intros. now apply minimaxSafe_game.
  - intros. apply findBestMove_game.
  - intros. f_equal. now apply minimaxSafe_game.
  - intros. f_equal. apply findBestMove_game.
Qed.

(** C5: in a position that is neither checkmate nor a draw and in which a
    legal move mates at once, [findBestMove] returns the first mating move
    of the ordered move list.  It does so under every difficulty name,
    before the clock is read and before any search: the game object and
    the clock count come back untouched. *)
Theorem findBestMove_mate_in_one (g : G) (mate : Move) :
  isCheckmate g = false -> isDraw g = false ->
  In mate (safeMoves g) -> isCheckmate (move g mate) = true ->
  exists m,
    find (fun m => isCheckmate (move g m)) (orderMovesSafe (safeMoves g))
    = Some m
    /\ In m (safeMoves g)
    /\ isCheckmate (move g m) = true
    /\ forall (difficulty : string) (clk : nat) (rnd : Q),
         findBestMove now g difficulty clk rnd = (Chosen m, g, clk).
Proof.
  intros Hc Hd Hin Hmate.
  destruct (find (fun m => isCheckmate (move g m))
              (orderMovesSafe (safeMoves g))) as [m|] eqn:Hfind.
  - exists m. apply find_some in Hfind as Hm. destruct Hm as [Hm1 Hm2].
    repeat split; [now apply ordered_legal | exact Hm2 |].
    intros difficulty clk rnd. unfold findBestMove. rewrite Hc, Hd. simpl.
    destruct (orderMovesSafe (safeMoves g)) as [|first rest] eqn:Hms;
      [discriminate|].
    rewrite mateInOne_law.
    + now rewrite Hfind.
    + intros m' Hm'. apply ordered_legal. now rewrite Hms.
  - exfalso.
    assert (Hord : In mate (orderMovesSafe (safeMoves g))).
    { eapply Permutation_in; [apply orderMovesSafe_perm | exact Hin]. }
    pose proof (find_none _ _ Hfind mate Hord) as Hno. simpl in Hno.
    congruence.
Qed.

End RootBalance.

End Root.

(* ------------------------------------------------------------------ *)
(** * The theorems at concrete positions *)

Lemma search_restores_position_witness :
  game (snd (minimaxSafe (stalledClock 14) 2 freshWorld (Fin 0) (Fin 20) true))
  = kpGame
  /\ snd (fst (findBestMove (stalledClock 14) kpGame "advanced" 0 (1 # 2)))
     = kpGame.
Proof.
  destruct (@search_restores_position TreeGame _ (stalledClock 14) TreeLaws)
    as [Hsearch [Hroot _]].
  split; [apply (Hsearch 2%nat freshWorld) | apply Hroot].
Defined.

Lemma findBestMove_ignores_random_witness :
  findBestMove (stalledClock 14) kpGame "beginner" 0 (1 # 4)
  = findBestMove (stalledClock 14) kpGame "beginner" 0 (3 # 4).
Proof.
  apply (@findBestMove_ignores_random TreeGame _ (stalledClock 14)
           kpGame "beginner" 0%nat (1 # 4) (3 # 4)); lra.
Defined.

Lemma findBestMove_null_iff_witness :
  exists m,
    fst (fst (findBestMove (stalledClock 14) kpGame "moderate" 0 (1 # 2)))
    = Chosen m
    /\ In m (safeMoves kpGame).
Proof.
  apply (@findBestMove_null_iff TreeGame _ (stalledClock 14)
           kpGame "moderate" 0%nat (1 # 2)).
  - vm_compute. discriminate.
  - lra.
  - reflexivity.
  - reflexivity.
Defined.

Lemma findBestMove_mate_in_one_witness :
  exists m,
    find (fun m => isCheckmate (move foolsGame m))
      (orderMovesSafe (safeMoves foolsGame)) = Some m
    /\ In m (safeMoves foolsGame)
    /\ isCheckmate (move foolsGame m) = true
    /\ forall difficulty clk rnd,
         findBestMove (stalledClock 14) foolsGame difficulty clk rnd
         = (Chosen m, foolsGame, clk).
Proof.
  apply (@findBestMove_mate_in_one TreeGame _ (stalledClock 14) TreeLaws
           foolsGame Qh4).
  - reflexivity.
  - reflexivity.
  - vm_compute. tauto.
  - vm_compute. reflexivity.
Defined.

Lemma minimaxSafe_node_ceiling_witness :
  minimaxSafe (stalledClock 14) 3 nearCeiling NegInfinity Infinity true
  = (Fin (evaluate kpGame), bump nearCeiling)
  /\ nodes (state (bump nearCeiling)) = 30.
Proof.
  destruct (@minimaxSafe_node_ceiling TreeGame _ (stalledClock 14) 3%nat
              nearCeiling NegInfinity Infinity true 30)
    as (Hret & _ & _ & Hcount).
  - reflexivity.
  - simpl. lia.
  - split; [exact Hret | apply Hcount; simpl; lia].
Defined.

(* ------------------------------------------------------------------ *)
(** * Difficulty names *)

Section Names.

Context {G : Type} `{Chess G}.
Variable now : nat -> Z.

(** The legacy export is [findBestMove] at "moderate". *)
Lemma findBestMoveB_moderate (g : G) (clk : nat) (rnd : Q) :
  findBestMoveB now g clk rnd = findBestMove now g "moderate" clk rnd.
Proof. reflexivity. Qed.

(** A name under which the lookup finds nothing runs the moderate
    profile. *)
Lemma findBestMove_unlisted (g : G) (name : string) (clk : nat) (rnd : Q) :
  DIFFICULTY_CONFIG name = None ->
  findBestMove now g name clk rnd = findBestMove now g "moderate" clk rnd.
Proof.
  intros Hname. unfold findBestMove. rewrite Hname. reflexivity.
Qed.

(** A name that the table inherits finds a value without a depth, a
    deadline or a randomness: the deepening loop does not run and the first
    move of the ordered list comes back. *)
Lemma findBestMove_inherited (g : G) (name : string) (clk : nat) (rnd : Q)
    (first : Move) (rest : list Move) (g1 : G) :
  DIFFICULTY_CONFIG name = Some inheritedValue ->
  isCheckmate g || isDraw g = false ->
  orderMovesSafe (safeMoves g) = first :: rest ->
  mateInOne (first :: rest) g = (None, g1) ->
  findBestMove now g name clk rnd = (Chosen first, g1, clk).
Proof.
  intros Hname Hterm Hms Hmate. unfold findBestMove.
  rewrite Hname, Hterm, Hms, Hmate. reflexivity.
Qed.

End Names.

(** C10, where the code departs from it: "constructor" is not the name of
    a difficulty, yet the lookup finds the function that every object
    inherits under that name, so the fallback to the moderate profile is
    not taken.  In the king-and-pawn position, with a clock that lets the
    first iteration finish, the moderate profile answers h5 and the name
    "constructor" answers h6, the first move of the ordered list. *)
Theorem findBestMove_inherited_name :
  DIFFICULTY_CONFIG "constructor" = Some inheritedValue
  /\ fst (fst (findBestMove (stalledClock 14) kpGame "constructor" 0 (1 # 2)))
     = Chosen (quiet Pawn "h7" "h6")
  /\ fst (fst (findBestMove (stalledClock 14) kpGame "moderate" 0 (1 # 2)))
     = Chosen (quiet Pawn "h7" "h5")
  /\ fst (fst (findBestMoveB (stalledClock 14) kpGame 0 (1 # 2)))
     = Chosen (quiet Pawn "h7" "h5").
Proof.
  repeat split; vm_compute; reflexivity.
Qed.

(** The counter itself is not capped: calls entered past the ceiling still
    count, each returning at once.  With a ceiling of 3 a two-ply search of
    the king-and-pawn position ends with the counter at 15. *)
Example counter_passes_ceiling :
  nodes (state (snd (minimaxSafe (fun _ => 0) 2
     {| game := kpGame;
        state := {| nodes := 0; nodeLimit := Some 3; endTime := None |};
        clock := 0 |} NegInfinity Infinity true))) = 15.
Proof. vm_compute. reflexivity. Qed.

(* ================================================================== *)
(** * Further properties of the engine *)

(** ** The budget only moves forward *)

Section Budget.

Context {G : Type} `{Chess G}.
Variable now : nat -> Z.

Lemma advances_refl (w : World G) : advances w w.
Proof. unfold advances. repeat split; lia. Qed.

Lemma advances_trans (w1 w2 w3 : World G) :
  advances w1 w2 -> advances w2 w3 -> advances w1 w3.
Proof.
  unfold advances. intros (A1 & A2 & A3 & A4) (B1 & B2 & B3 & B4).
  repeat split; try congruence; lia.
Qed.

Lemma timeUp_advances (w : World G) : advances w (snd (timeUp now w)).
Proof.
  unfold timeUp. destruct (endTime (state w)) as [t|]; [|apply advances_refl].
  destruct (t =? 0); [apply advances_refl|].
  unfold advances. simpl. repeat split; lia.
Qed.

Lemma maxLoop_advances search (ms : list Move) :
  advancing search ->
  forall best alpha beta (w : World G),
    advances w (snd (maxLoop search ms best alpha beta w)).
Proof.
  intros Hs. induction ms as [|m rest IH]; intros best alpha beta w.
  - apply advances_refl.
  - simpl. pose proof (Hs (applyMove w m) alpha beta) as Ha.
    destruct (search (applyMove w m) alpha beta) as [val w1]. cbn [snd] in Ha.
    assert (Hw : advances w (undoMove w1)) by exact Ha.
    destruct (num_ge _ beta); [exact Hw|].
    eapply advances_trans; [exact Hw | apply IH].
Qed.

Lemma minLoop_advances search (ms : list Move) :
  advancing search ->
  forall best alpha beta (w : World G),
    advances w (snd (minLoop search ms best alpha beta w)).
Proof.
  intros Hs. induction ms as [|m rest IH]; intros best alpha beta w.
  - apply advances_refl.
  - simpl. pose proof (Hs (applyMove w m) alpha beta) as Ha.
    destruct (search (applyMove w m) alpha beta) as [val w1]. cbn [snd] in Ha.
    assert (Hw : advances w (undoMove w1)) by exact Ha.
    destruct (num_ge alpha _); [exact Hw|].
    eapply advances_trans; [exact Hw | apply IH].
Qed.

Lemma bump_advances (w : World G) :
  advances w (bump w) /\ nodes (state (bump w)) = nodes (state w) + 1.
Proof. unfold advances. simpl. repeat split; lia. Qed.

Lemma minimaxSafe_counts (depth : nat) :
  forall (w : World G) alpha beta maximizing,
    let w' := snd (minimaxSafe now depth w alpha beta maximizing) in
    advances w w' /\ nodes (state w) + 1 <= nodes (state w').
Proof.
  assert (Hstep : forall (w w' : World G),
            advances (bump w) w' ->
            advances w w' /\ nodes (state w) + 1 <= nodes (state w')).
  { intros w w' Ha. split.
    - eapply advances_trans; [apply bump_advances | exact Ha].
    - destruct Ha as (_ & _ & Hn & _). simpl in Hn. exact Hn. }
  induction depth as [|d IH]; intros w alpha beta maximizing; cbn zeta;
    apply Hstep; simpl.
  - destruct (overLimit (bump w)); [apply advances_refl|].
    pose proof (timeUp_advances (bump w)) as Ht.
    destruct (timeUp now (bump w)) as [late w1]. cbn [snd] in Ht.
    destruct late; exact Ht.
  - destruct (overLimit (bump w)); [apply advances_refl|].
    pose proof (timeUp_advances (bump w)) as Ht.
    destruct (timeUp now (bump w)) as [late w1]. cbn [snd] in Ht.
    destruct late; [exact Ht|].
    destruct (isGameOver (game w1)); [exact Ht|].
    destruct (orderMovesSafe (safeMoves (game w1))) as [|m ms]; [exact Ht|].
    destruct maximizing.
    + eapply advances_trans; [exact Ht|]. apply maxLoop_advances.
      intros w' a b. apply IH.
    + eapply advances_trans; [exact Ht|]. apply minLoop_advances.
      intros w' a b. apply IH.
Qed.

(** X1: a call of the search never lowers the node counter or the clock
    count and never touches the ceiling or the deadline of the budget
    object; the counter goes up by at least one, the call's own node. *)
Theorem minimaxSafe_budget_forward (depth : nat) (w : World G)
    (alpha beta : Num) (maximizing : bool) :
  let w' := snd (minimaxSafe now depth w alpha beta maximizing) in
  nodeLimit (state w') = nodeLimit (state w)
  /\ endTime (state w') = endTime (state w)
  /\ nodes (state w) + 1 <= nodes (state w')
  /\ (clock w <= clock w')%nat.
Proof.
  destruct (minimaxSafe_counts depth w alpha beta maximizing)
    as [(Hl & He & _ & Hc) Hn].
  cbn zeta. auto.
Qed.

End Budget.

(* ------------------------------------------------------------------ *)
(** ** The order on the values *)

Ltac nsolve :=
  unfold failSoft, nmax, nmin, num_gt, num_lt, num_ge, nle in *;
  repeat match goal with x : Num |- _ => destruct x end;
  simpl in *;
  repeat match goal with
         | |- context [?a <? ?b] => destruct (Z.ltb_spec a b)
         | H : context [?a <? ?b] |- _ => destruct (Z.ltb_spec a b)
         | |- context [?a >=? ?b] => destruct (Z.geb_spec a b)
         | H : context [?a >=? ?b] |- _ => destruct (Z.geb_spec a b)
         end;
  try discriminate; try tauto;
  try (intuition (try congruence; try lia; try (f_equal; lia);
         repeat match goal with
                | E : Fin _ = Fin _ |- _ => injection E as E
                end;
         try lia; try (f_equal; lia))).

Lemma num_ge_nle a b : num_ge a b = true <-> nle b a.
Proof. nsolve. Qed.
Lemma num_ge_not a b : num_ge a b = false <-> ~ nle b a.
Proof. nsolve. Qed.

Lemma nle_refl a : nle a a. Proof. nsolve. Qed.
Lemma nle_trans a b c : nle a b -> nle b c -> nle a c. Proof. nsolve. Qed.
Lemma nmax_ge_l a b : nle a (nmax a b). Proof. nsolve. Qed.
Lemma nmax_assoc a b c : nmax (nmax a b) c = nmax a (nmax b c). Proof. nsolve. Qed.

(* break case *)
Lemma max_break alpha0 beta best alpha val c T E :
  alpha = nmax alpha0 best -> ~ nle beta alpha ->
  failSoft alpha beta val c ->
  num_ge (nmax alpha val) beta = true ->
  nle (nmax E c) T ->
  failSoft alpha0 beta (nmax best val) T.
Proof. intros ->. nsolve. Qed.

Lemma max_continue alpha0 beta best alpha val c E :
  alpha = nmax alpha0 best -> ~ nle beta alpha ->
  nle E best -> (~ nle best alpha0 -> E = best) ->
  failSoft alpha beta val c ->
  num_ge (nmax alpha val) beta = false ->
  ~ nle beta (nmax alpha val)
  /\ nmax alpha val = nmax alpha0 (nmax best val)
  /\ nle (nmax E c) (nmax best val)
  /\ (~ nle (nmax best val) alpha0 -> nmax E c = nmax best val).
Proof. intros ->. nsolve. Qed.

Lemma min_break alpha beta0 best beta val c T E :
  beta = nmin beta0 best -> ~ nle beta alpha ->
  failSoft alpha beta val c ->
  num_ge alpha (nmin beta val) = true ->
  nle T (nmin E c) ->
  failSoft alpha beta0 (nmin best val) T.
Proof. intros ->. nsolve. Qed.

Lemma min_continue alpha beta0 best beta val c E :
  beta = nmin beta0 best -> ~ nle beta alpha ->
  nle best E -> (~ nle beta0 best -> E = best) ->
  failSoft alpha beta val c ->
  num_ge alpha (nmin beta val) = false ->
  ~ nle (nmin beta val) alpha
  /\ nmin beta val = nmin beta0 (nmin best val)
  /\ nle (nmin best val) (nmin E c)
  /\ (~ nle beta0 (nmin best val) -> nmin E c = nmin best val).
Proof. intros ->. nsolve. Qed.

Lemma nmin_le_l a b : nle (nmin a b) a. Proof. nsolve. Qed.
Lemma nmax_swap a b c : nmax (nmax a b) c = nmax (nmax a c) b. Proof. nsolve. Qed.
Lemma nmin_swap a b c : nmin (nmin a b) c = nmin (nmin a c) b. Proof. nsolve. Qed.
Lemma failSoft_exact alpha beta m : failSoft alpha beta m m.
Proof. unfold failSoft. repeat split; intros; try apply nle_refl. Qed.
Lemma failSoft_full v m z :
  failSoft NegInfinity Infinity v m -> v = Fin z -> v = m.
Proof. intros Hf ->. nsolve. Qed.


(* ------------------------------------------------------------------ *)
(** ** Alpha-beta against minimax *)

Section Minimax.

Context {G : Type} `{Chess G}.
Variable now : nat -> Z.

Lemma within_back (w w' : World G) : advances w w' -> within w' -> within w.
Proof.
  unfold advances, within. intros (-> & _ & Hn & _).
  destruct (nodeLimit (state w)); [lia | trivial].
Qed.

Lemma calm_on (w w' : World G) : advances w w' -> calm now w -> calm now w'.
Proof. unfold advances, calm. intros (_ & -> & _). trivial. Qed.

Lemma within_not_over (w : World G) : within w -> overLimit w = false.
Proof.
  unfold within, overLimit. destruct (nodeLimit (state w)) as [N|]; [|reflexivity].
  intros Hlt. destruct (Z.geb_spec (nodes (state w)) N); [lia | reflexivity].
Qed.

Lemma calm_not_late (w : World G) : calm now w -> fst (timeUp now w) = false.
Proof.
  unfold calm, timeUp. destruct (endTime (state w)) as [t|]; [|reflexivity].
  intros [-> | Hnow]; [reflexivity|].
  destruct (t =? 0); [reflexivity|]. simpl.
  specialize (Hnow (clock w)).
  destruct (Z.geb_spec (now (clock w)) t); [lia | reflexivity].
Qed.

Lemma fold_nmax_ge (f : Move -> Num) (ms : list Move) :
  forall E, nle E (fold_left (fun b m => nmax b (f m)) ms E).
Proof.
  induction ms as [|m rest IH]; intros E; simpl; [apply nle_refl|].
  eapply nle_trans; [apply nmax_ge_l | apply IH].
Qed.

Lemma fold_nmin_le (f : Move -> Num) (ms : list Move) :
  forall E, nle (fold_left (fun b m => nmin b (f m)) ms E) E.
Proof.
  induction ms as [|m rest IH]; intros E; simpl; [apply nle_refl|].
  eapply nle_trans; [apply IH | apply nmin_le_l].
Qed.

Lemma fold_nmax_perm (f : Move -> Num) (l l' : list Move) :
  Permutation l l' ->
  forall E, fold_left (fun b m => nmax b (f m)) l E
            = fold_left (fun b m => nmax b (f m)) l' E.
Proof.
  induction 1 as [|x l l' _ IH|x y l|l l' l'' _ IH1 _ IH2]; intros E; simpl.
  - reflexivity.
  - apply IH.
  - now rewrite nmax_swap.
  - now rewrite IH1, IH2.
Qed.

Lemma fold_nmin_perm (f : Move -> Num) (l l' : list Move) :
  Permutation l l' ->
  forall E, fold_left (fun b m => nmin b (f m)) l E
            = fold_left (fun b m => nmin b (f m)) l' E.
Proof.
  induction 1 as [|x l l' _ IH|x y l|l l' l'' _ IH1 _ IH2]; intros E; simpl.
  - reflexivity.
  - apply IH.
  - now rewrite nmin_swap.
  - now rewrite IH1, IH2.
Qed.

Section Loops.

Context `{!ChessLaws G}.

Lemma maxLoop_sound cv search (alpha0 beta : Num) (g : G) (ms : list Move) :
  restoring search -> advancing search -> sound now cv search ->
  (forall m, In m ms -> In m (safeMoves g)) ->
  forall best alpha E (w : World G),
    game w = g -> calm now w ->
    alpha = nmax alpha0 best -> ~ nle beta alpha ->
    nle E best -> (~ nle best alpha0 -> E = best) ->
    within (snd (maxLoop search ms best alpha beta w)) ->
    failSoft alpha0 beta (fst (maxLoop search ms best alpha beta w))
      (fold_left (fun b m => nmax b (cv (move g m))) ms E).
Proof.
  intros Hres Hadv Hsound.
  induction ms as [|m rest IH];
    intros Hlegal best alpha E w Hgame Hcalm Ha Hab HE HE' Hin.
  - simpl in *. subst alpha. clear - Hab HE HE'. nsolve.
  - simpl in Hin |- *.
    pose proof (Hres (applyMove w m) alpha beta) as Hg.
    pose proof (Hadv (applyMove w m) alpha beta) as Hstep.
    pose proof (Hsound (applyMove w m) alpha beta) as Hval.
    destruct (search (applyMove w m) alpha beta) as [val w1].
    cbn [fst snd] in *.
    assert (Hback : game (undoMove w1) = g).
    { rewrite <- Hgame. apply apply_undo with m; [|exact Hg].
      rewrite Hgame. apply Hlegal. now left. }
    assert (Hadv2 : advances w (undoMove w1)) by exact Hstep.
    replace (game (applyMove w m)) with (move g m) in Hval
      by (simpl; now rewrite Hgame).
    set (c := cv (move g m)) in *.
    assert (Hw1 : within w1).
    { destruct (num_ge (if num_gt val alpha then val else alpha) beta).
      - exact Hin.
      - apply within_back with (w := undoMove w1) (w' := snd (maxLoop search rest
            (if num_gt val best then val else best)
            (if num_gt val alpha then val else alpha) beta (undoMove w1))).
        + apply maxLoop_advances, Hadv.
        + exact Hin. }
    specialize (Hval Hcalm Hab Hw1).
    destruct (num_ge (if num_gt val alpha then val else alpha) beta) eqn:Hcut.
    + cbn [fst snd] in *.
      exact (@max_break alpha0 beta best alpha val c _ E Ha Hab Hval Hcut
               (fold_nmax_ge _ rest (nmax E c))).
    + destruct (@max_continue alpha0 beta best alpha val c E
                  Ha Hab HE HE' Hval Hcut) as (K1 & K2 & K3 & K4).
      apply IH; auto.
      * intros m' Hm'. apply Hlegal. now right.
      * apply calm_on with w; assumption.
Qed.

Lemma minLoop_sound cv search (alpha beta0 : Num) (g : G) (ms : list Move) :
  restoring search -> advancing search -> sound now cv search ->
  (forall m, In m ms -> In m (safeMoves g)) ->
  forall best beta E (w : World G),
    game w = g -> calm now w ->
    beta = nmin beta0 best -> ~ nle beta alpha ->
    nle best E -> (~ nle beta0 best -> E = best) ->
    within (snd (minLoop search ms best alpha beta w)) ->
    failSoft alpha beta0 (fst (minLoop search ms best alpha beta w))
      (fold_left (fun b m => nmin b (cv (move g m))) ms E).
Proof.
  intros Hres Hadv Hsound.
  induction ms as [|m rest IH];
    intros Hlegal best beta E w Hgame Hcalm Hb Hab HE HE' Hin.
  - simpl in *. subst beta. clear - Hab HE HE'. nsolve.
  - simpl in Hin |- *.
    pose proof (Hres (applyMove w m) alpha beta) as Hg.
    pose proof (Hadv (applyMove w m) alpha beta) as Hstep.
    pose proof (Hsound (applyMove w m) alpha beta) as Hval.
    destruct (search (applyMove w m) alpha beta) as [val w1].
    cbn [fst snd] in *.
    assert (Hback : game (undoMove w1) = g).
    { rewrite <- Hgame. apply apply_undo with m; [|exact Hg].
      rewrite Hgame. apply Hlegal. now left. }
    assert (Hadv2 : advances w (undoMove w1)) by exact Hstep.
    replace (game (applyMove w m)) with (move g m) in Hval
      by (simpl; now rewrite Hgame).
    set (c := cv (move g m)) in *.
    assert (Hw1 : within w1).
    { destruct (num_ge alpha (if num_lt val beta then val else beta)).
      - exact Hin.
      - apply within_back with (w := undoMove w1) (w' := snd (minLoop search rest
            (if num_lt val best then val else best) alpha
            (if num_lt val beta then val else beta) (undoMove w1))).
        + apply minLoop_advances, Hadv.
        + exact Hin. }
    specialize (Hval Hcalm Hab Hw1).
    destruct (num_ge alpha (if num_lt val beta then val else beta)) eqn:Hcut.
    + cbn [fst snd] in *.
      exact (@min_break alpha beta0 best beta val c _ E Hb Hab Hval Hcut
               (fold_nmin_le _ rest (nmin E c))).
    + destruct (@min_continue alpha beta0 best beta val c E
                  Hb Hab HE HE' Hval Hcut) as (K1 & K2 & K3 & K4).
      apply IH; auto.
      * intros m' Hm'. apply Hlegal. now right.
      * apply calm_on with w; assumption.
Qed.

Lemma minimax_over (d : nat) (g : G) (mx : bool) :
  isGameOver g = true -> minimax (S d) g mx = Fin (evaluate g).
Proof. intros E. simpl. now rewrite E. Qed.

Lemma minimax_stuck (d : nat) (g : G) (mx : bool) :
  safeMoves g = [] -> minimax (S d) g mx = Fin (evaluate g).
Proof. intros E. simpl. rewrite E. now destruct (isGameOver g). Qed.

Lemma minimax_node (d : nat) (g : G) (mx : bool) :
  isGameOver g = false -> safeMoves g <> [] ->
  minimax (S d) g mx
  = if mx then
      fold_left (fun b m => nmax b (minimax d (move g m) false))
        (safeMoves g) NegInfinity
    else
      fold_left (fun b m => nmin b (minimax d (move g m) true))
        (safeMoves g) Infinity.
Proof.
  intros E Hne. cbn [minimax]. rewrite E.
  destruct (safeMoves g); [contradiction | reflexivity].
Qed.

(** Alpha-beta is sound for minimax: below the window the value is an upper
    bound, above it a lower bound, inside it exact. *)
Lemma minimaxSafe_sound (depth : nat) :
  forall maximizing,
    sound now (fun g => minimax depth g maximizing)
      (fun w a b => minimaxSafe now depth w a b maximizing).
Proof.
  induction depth as [|d IH]; intros maximizing w alpha beta Hcalm Hab Hin.
  - pose proof (minimaxSafe_leaf now w alpha beta maximizing) as [-> _].
    apply failSoft_exact.
  - pose proof (bump_advances w) as [Hb _].
    remember (minimax (S d) (game w) maximizing) as mm eqn:Hmm.
    simpl in Hin |- *.
    destruct (overLimit (bump w)) eqn:Hover.
    { cbn [snd] in Hin. apply within_not_over in Hin. congruence. }
    pose proof (timeUp_advances now (bump w)) as Ht.
    pose proof (timeUp_game now (bump w)) as Hg.
    pose proof (calm_not_late (bump w) (calm_on Hb Hcalm)) as Hlate.
    destruct (timeUp now (bump w)) as [late w1]. cbn [fst snd] in *.
    subst late. change (game (bump w)) with (game w) in Hg.
    assert (Hcalm1 : calm now w1).
    { apply calm_on with (bump w); [exact Ht | apply calm_on with w; assumption]. }
    rewrite Hg in *.
    destruct (isGameOver (game w)) eqn:Hover'.
    { rewrite minimax_over in Hmm by assumption. subst mm. apply failSoft_exact. }
    pose proof (orderMovesSafe_perm (safeMoves (game w))) as Hperm.
    destruct (orderMovesSafe (safeMoves (game w))) as [|m ms] eqn:Hms.
    { apply Permutation_sym, Permutation_nil in Hperm.
      rewrite minimax_stuck in Hmm by assumption. subst mm.
      apply failSoft_exact. }
    assert (Hne : safeMoves (game w) <> []).
    { intros E. rewrite E in Hperm. apply Permutation_nil in Hperm.
      discriminate. }
    rewrite minimax_node in Hmm by assumption.
    assert (Hlegal : forall m', In m' (m :: ms) -> In m' (safeMoves (game w))).
    { intros m' Hm'.
      eapply Permutation_in; [apply Permutation_sym, Hperm | exact Hm']. }
    destruct maximizing; subst mm.
    + rewrite (fold_nmax_perm _ Hperm).
      apply (@maxLoop_sound (fun g' => minimax d g' false)
               (fun w a b => minimaxSafe now d w a b false)
               alpha beta (game w) (m :: ms)); auto;
        try (intros w' a b; now apply minimaxSafe_game);
        try (intros w' a b; apply minimaxSafe_counts);
        try (clear - Hab; nsolve).
    + rewrite (fold_nmin_perm _ Hperm).
      apply (@minLoop_sound (fun g' => minimax d g' true)
               (fun w a b => minimaxSafe now d w a b true)
               alpha beta (game w) (m :: ms)); auto;
        try (intros w' a b; now apply minimaxSafe_game);
        try (intros w' a b; apply minimaxSafe_counts);
        try (clear - Hab; nsolve).
Qed.

Lemma maxLoop_picks (Q : Num -> Prop) search (g : G) (ms : list Move) :
  restoring search ->
  (forall v, Q v -> v <> NegInfinity) ->
  (forall m w a b, In m ms -> game w = move g m -> Q (fst (search w a b))) ->
  (forall m, In m ms -> In m (safeMoves g)) ->
  forall best alpha beta (w : World G),
    game w = g ->
    (Q best \/ (best = NegInfinity /\ ms <> [])) ->
    Q (fst (maxLoop search ms best alpha beta w)).
Proof.
  intros Hres Hq Hs. induction ms as [|m rest IH];
    intros Hlegal best alpha beta w Hgame Hbest.
  - simpl. destruct Hbest as [Hb | [_ Hne]]; [exact Hb | contradiction].
  - simpl.
    pose proof (Hres (applyMove w m) alpha beta) as Hg.
    pose proof (Hs m (applyMove w m) alpha beta (or_introl eq_refl)) as Hv.
    destruct (search (applyMove w m) alpha beta) as [val w1].
    cbn [fst snd] in *.
    specialize (Hv ltac:(simpl; now rewrite Hgame)).
    assert (Hback : game (undoMove w1) = g).
    { rewrite <- Hgame. apply apply_undo with m; [|exact Hg].
      rewrite Hgame. apply Hlegal. now left. }
    assert (Hnew : Q (if num_gt val best then val else best)).
    { destruct Hbest as [Hb | [-> _]].
      - destruct (num_gt val best); assumption.
      - specialize (Hq val Hv). destruct val; try contradiction; exact Hv. }
    destruct (num_ge _ beta); [exact Hnew|].
    apply IH; auto.
    + intros m' w' a b Hm'. apply Hs. now right.
    + intros m' Hm'. apply Hlegal. now right.
Qed.

Lemma minLoop_picks (Q : Num -> Prop) search (g : G) (ms : list Move) :
  restoring search ->
  (forall v, Q v -> v <> Infinity) ->
  (forall m w a b, In m ms -> game w = move g m -> Q (fst (search w a b))) ->
  (forall m, In m ms -> In m (safeMoves g)) ->
  forall best alpha beta (w : World G),
    game w = g ->
    (Q best \/ (best = Infinity /\ ms <> [])) ->
    Q (fst (minLoop search ms best alpha beta w)).
Proof.
  intros Hres Hq Hs. induction ms as [|m rest IH];
    intros Hlegal best alpha beta w Hgame Hbest.
  - simpl. destruct Hbest as [Hb | [_ Hne]]; [exact Hb | contradiction].
  - simpl.
    pose proof (Hres (applyMove w m) alpha beta) as Hg.
    pose proof (Hs m (applyMove w m) alpha beta (or_introl eq_refl)) as Hv.
    destruct (search (applyMove w m) alpha beta) as [val w1].
    cbn [fst snd] in *.
    specialize (Hv ltac:(simpl; now rewrite Hgame)).
    assert (Hback : game (undoMove w1) = g).
    { rewrite <- Hgame. apply apply_undo with m; [|exact Hg].
      rewrite Hgame. apply Hlegal. now left. }
    assert (Hnew : Q (if num_lt val best then val else best)).
    { destruct Hbest as [Hb | [-> _]].
      - destruct (num_lt val best); assumption.
      - specialize (Hq val Hv). destruct val; try contradiction; exact Hv. }
    destruct (num_ge alpha _); [exact Hnew|].
    apply IH; auto.
    + intros m' w' a b Hm'. apply Hs. now right.
    + intros m' Hm'. apply Hlegal. now right.
Qed.

Lemma evalAhead_step (n : nat) (g : G) (m : Move) (v : Num) :
  In m (safeMoves g) -> evalAhead n (move g m) v -> evalAhead (S n) g v.
Proof.
  intros Hin (g' & Hreach & ->). exists g'. split; [|reflexivity].
  now apply ahead_move with m.
Qed.

Lemma evalAhead_here (n : nat) (g : G) : evalAhead n g (Fin (evaluate g)).
Proof. exists g. split; [apply ahead_here | reflexivity]. Qed.

Lemma minimaxSafe_evalAhead (depth : nat) :
  forall (w : World G) alpha beta maximizing,
    evalAhead depth (game w)
      (fst (minimaxSafe now depth w alpha beta maximizing)).
Proof.
  induction depth as [|d IH]; intros w alpha beta maximizing.
  - pose proof (minimaxSafe_leaf now w alpha beta maximizing) as [-> _].
    apply evalAhead_here.
  - simpl. destruct (overLimit (bump w)); [apply evalAhead_here|].
    pose proof (timeUp_game now (bump w)) as Hg.
    destruct (timeUp now (bump w)) as [late w1]. cbn [fst snd] in *.
    change (game (bump w)) with (game w) in Hg. rewrite Hg.
    destruct late; [apply evalAhead_here|].
    destruct (isGameOver (game w)); [apply evalAhead_here|].
    destruct (orderMovesSafe (safeMoves (game w))) as [|m ms] eqn:Hms;
      [apply evalAhead_here|].
    assert (Hlegal : forall m', In m' (m :: ms) -> In m' (safeMoves (game w))).
    { intros m' Hm'. apply ordered_legal. now rewrite Hms. }
    destruct maximizing.
    + apply maxLoop_picks with (g := game w); auto.
      * intros w' a b. now apply minimaxSafe_game.
      * intros v (g' & _ & ->). discriminate.
      * intros m' w' a b Hm' Hw'. apply evalAhead_step with m'; auto.
        rewrite <- Hw'. apply IH.
      * right. split; [reflexivity | discriminate].
    + apply minLoop_picks with (g := game w); auto.
      * intros w' a b. now apply minimaxSafe_game.
      * intros v (g' & _ & ->). discriminate.
      * intros m' w' a b Hm' Hw'. apply evalAhead_step with m'; auto.
        rewrite <- Hw'. apply IH.
      * right. split; [reflexivity | discriminate].
Qed.

(** X2: whatever the budget does, the value the search returns is the
    static evaluation of a position that at most [depth] legal moves lead
    to; it is always a number, never one of the infinities that seed the
    loops. *)
Theorem minimaxSafe_value_is_an_evaluation (depth : nat) (w : World G)
    (alpha beta : Num) (maximizing : bool) :
  exists g',
    ahead depth (game w) g'
    /\ fst (minimaxSafe now depth w alpha beta maximizing)
       = Fin (evaluate g').
Proof. apply minimaxSafe_evalAhead. Qed.

(** X3: alpha-beta against plain minimax.  When the deadline is never
    reached and the call ends with the node counter below the ceiling, the
    value returned for a window [alpha < beta] is an upper bound of the
    minimax value if it is at or below [alpha], a lower bound if it is at
    or above [beta], and the minimax value itself strictly inside; with the
    full window it is the minimax value, so pruning and move ordering do
    not change the result. *)
Theorem minimaxSafe_is_minimax (depth : nat) (w : World G)
    (alpha beta : Num) (maximizing : bool) :
  calm now w ->
  within (snd (minimaxSafe now depth w alpha beta maximizing)) ->
  num_lt alpha beta = true ->
  failSoft alpha beta (fst (minimaxSafe now depth w alpha beta maximizing))
    (minimax depth (game w) maximizing)
  /\ (alpha = NegInfinity -> beta = Infinity ->
      fst (minimaxSafe now depth w alpha beta maximizing)
      = minimax depth (game w) maximizing).
Proof.
  intros Hcalm Hin Hab.
  assert (Hsound : failSoft alpha beta
            (fst (minimaxSafe now depth w alpha beta maximizing))
            (minimax depth (game w) maximizing)).
  { apply (minimaxSafe_sound depth maximizing w alpha beta); auto.
    clear - Hab. nsolve. }
  split; [exact Hsound|].
  intros -> ->.
  destruct (minimaxSafe_evalAhead depth w NegInfinity Infinity maximizing)
    as (g' & _ & Hv).
  eapply failSoft_full; [exact Hsound | exact Hv].
Qed.

End Loops.

End Minimax.

(* ------------------------------------------------------------------ *)
(** ** More on the move ordering *)

(** X4: ordering an ordered list changes nothing, and ordering never
    changes the number of moves. *)
Theorem orderMovesSafe_idempotent (moves : list Move) :
  orderMovesSafe (orderMovesSafe moves) = orderMovesSafe moves
  /\ List.length (orderMovesSafe moves) = List.length moves.
Proof.
  split.
  - rewrite !orderMovesSafe_sort.
    symmetry. apply jsSort_any_stable_sort.
    + apply jsSort_sorted.
    + intros k. reflexivity.
  - symmetry. apply Permutation_length, orderMovesSafe_perm.
Qed.

Lemma sorted_later (A : Type) (R : A -> A -> Prop) (l1 : list A) :
  forall b l2 a l3,
    StronglySorted R (l1 ++ b :: l2 ++ a :: l3)%list -> R b a.
Proof.
  induction l1 as [|x l1 IH]; intros b l2 a l3 Hs; simpl in Hs.
  - apply StronglySorted_inv in Hs. destruct Hs as [_ Hall].
    rewrite Forall_forall in Hall. apply Hall.
    apply in_or_app. right. now left.
  - apply StronglySorted_inv in Hs. destruct Hs as [Hs _]. eapply IH, Hs.
Qed.

Lemma ordered_scores (moves l1 l2 l3 : list Move) (a b : Move) :
  orderMovesSafe moves = (l1 ++ b :: l2 ++ a :: l3)%list ->
  moveScore b >= moveScore a.
Proof.
  intros Hout.
  pose proof (jsSort_sorted moveScore moves) as Hs.
  rewrite <- orderMovesSafe_sort, Hout in Hs.
  change (descending moveScore b a). eapply sorted_later; exact Hs.
Qed.

Lemma MATERIAL_range (p : PieceType) :
  100 <= MATERIAL p <= 20000 /\ (p <> King -> MATERIAL p <= 900).
Proof. destruct p; simpl; split; try lia; intros; try lia; congruence. Qed.

(** X5: in the ordered list, whatever stands before a capture made by a
    piece other than the king is itself a capture: no quiet move is tried
    before such a capture. *)
Theorem orderMovesSafe_captures_ahead (moves l1 l2 l3 : list Move)
    (x y : Move) :
  orderMovesSafe moves = (l1 ++ x :: l2 ++ y :: l3)%list ->
  captured y <> None -> piece y <> Some King ->
  captured x <> None.
Proof.
  intros Hout Hy Hk Hx.
  pose proof (@ordered_scores _ _ _ _ _ _ Hout) as Hsc.
  unfold moveScore in Hsc. rewrite Hx in Hsc.
  destruct (captured y) as [v|]; [|congruence].
  pose proof (MATERIAL_range v) as [Hv _].
  assert (Hquiet : 0 - match piece x with
                       | Some p => MATERIAL p
                       | None => 0
                       end <= 0).
  { destruct (piece x) as [p|]; [|lia]. pose proof (MATERIAL_range p). lia. }
  destruct (piece y) as [p|]; [|lia].
  pose proof (MATERIAL_range p) as [_ Hp].
  assert (Hnk : p <> King) by congruence. specialize (Hp Hnk). lia.
Qed.

(** X6: the king's value of 20000 puts every king move, captures
    included, behind every move of another piece: whatever stands after a
    king move in the ordered list is a king move as well. *)
Theorem orderMovesSafe_king_moves_last (moves l1 l2 l3 : list Move)
    (x y : Move) :
  orderMovesSafe moves = (l1 ++ x :: l2 ++ y :: l3)%list ->
  piece x = Some King -> captured x <> Some King ->
  captured y <> Some King ->
  piece y = Some King.
Proof.
  intros Hout Hk Hxk Hyk.
  pose proof (@ordered_scores _ _ _ _ _ _ Hout) as Hsc.
  unfold moveScore in Hsc. rewrite Hk in Hsc. simpl in Hsc.
  assert (Hx : match captured x with
               | Some c => MATERIAL c * 10
               | None => 0
               end <= 9000).
  { destruct (captured x) as [v|]; [|lia].
    pose proof (MATERIAL_range v) as [_ Hv].
    assert (Hnk : v <> King) by congruence. specialize (Hv Hnk). lia. }
  assert (Hy : 0 <= match captured y with
                    | Some c => MATERIAL c * 10
                    | None => 0
                    end).
  { destruct (captured y) as [v|]; [|lia].
    pose proof (MATERIAL_range v). lia. }
  destruct (piece y) as [p|]; [|lia].
  destruct (PieceType_eq_dec p King) as [-> | Hnk]; [reflexivity|].
  pose proof (MATERIAL_range p) as [_ Hp]. specialize (Hp Hnk). lia.
Qed.

(* ------------------------------------------------------------------ *)
(** ** More on the final pick *)





(* ------------------------------------------------------------------ *)
(** ** More on findBestMove *)

Section MoreRoot.

Context {G : Type} `{Chess G}.
Variable now : nat -> Z.

(** X8: in a position with exactly one legal move that is neither
    checkmate nor a draw, [findBestMove] returns that move, under every
    difficulty name and whatever the clock and the budget do. *)
Theorem findBestMove_only_move (g : G) (m : Move) (difficulty : string)
    (clk : nat) (rnd : Q) :
  isCheckmate g = false -> isDraw g = false ->
  safeMoves g = [m] ->
  (0 <= rnd < 1)%Q ->
  fst (fst (findBestMove now g difficulty clk rnd)) = Chosen m.
Proof.
  intros Hc Hd Hone Hrnd.
  assert (Hterm : isCheckmate g || isDraw g = false) by now rewrite Hc, Hd.
  assert (Hms : orderMovesSafe (safeMoves g) = [m]) by now rewrite Hone.
  destruct (mateInOne [m] g) as [[m'|] g1] eqn:Hmate.
  - unfold findBestMove. rewrite Hterm, Hms, Hmate. cbn [fst].
    assert (Hin : In m' [m]).
    { apply mateInOne_some with g. now rewrite Hmate. }
    destruct Hin as [-> | []]. reflexivity.
  - destruct (@findBestMove_searching G _ now g difficulty clk rnd m [] g1
                Hrnd Hterm Hms Hmate)
      as (limit & deadline & n & clk1 & -> & _).
    pose proof (deepen_best now limit deadline [m] n 1 m Infinity g1 clk1)
      as Hbest.
    destruct (deepen now n 1 limit deadline [m] m Infinity g1 clk1)
      as [[[best bestEval] g2] clk2].
    cbn [fst] in *. destruct Hbest as [-> | [-> | []]]; reflexivity.
Qed.

Lemma rootLoop_keeps (d : nat) (moves : list Move) :
  forall depthBest depthBestEval (w : World G),
    let r := rootLoop now d moves depthBest depthBestEval w in
    nle (snd (fst r)) depthBestEval
    /\ (snd (fst r) = depthBestEval -> fst (fst r) = depthBest).
Proof.
  induction moves as [|m rest IH]; intros depthBest depthBestEval w; cbn zeta.
  - simpl. split; [apply nle_refl | reflexivity].
  - simpl.
    destruct (minimaxSafe now (d - 1) (applyMove w m) NegInfinity Infinity true)
      as [val w1].
    destruct (num_lt val depthBestEval) eqn:Hlt;
      destruct (timeUp now (undoMove w1)) as [late w3];
      destruct late; cbn [fst snd];
      try (split; [apply nle_refl | reflexivity]);
      try (clear - Hlt; split; [nsolve | intros ->; nsolve]);
      try apply IH.
    specialize (IH m val w3). cbn zeta in IH.
    destruct (rootLoop now d rest m val w3) as [[b e] w4].
    cbn [fst snd] in *. destruct IH as [Hle _].
    clear - Hlt Hle. split; [nsolve | intros ->; nsolve].
Qed.

(** X9: through the iterations of the deepening loop the value held for
    the best move never goes up, and the best move changes only together
    with a strictly lower value: an iteration that finds nothing lower
    than the value a shallower one left keeps the shallower choice. *)
Theorem deepening_keeps_lower_value (n : nat) :
  forall d limit deadline moves best bestEval (g : G) clk,
    let r := deepen now n d limit deadline moves best bestEval g clk in
    nle (snd (fst (fst r))) bestEval
    /\ (snd (fst (fst r)) = bestEval -> fst (fst (fst r)) = best).
Proof.
  induction n as [|n IH]; intros d limit deadline moves best bestEval g clk;
    cbn zeta.
  - simpl. split; [apply nle_refl | reflexivity].
  - simpl.
    match goal with
    | |- context [rootLoop now d moves best bestEval ?w0] =>
        pose proof (rootLoop_keeps d moves best bestEval w0) as Hroot;
        destruct (rootLoop now d moves best bestEval w0) as [[db dbe] w1]
    end.
    cbn zeta in Hroot. cbn [fst snd] in Hroot. destruct Hroot as [Hle Hsame].
    destruct (timeUp now w1) as [late w2]. destruct late; cbn [fst snd].
    + split; assumption.
    + specialize (IH (S d) limit deadline moves db dbe (game w2) (clock w2)).
      cbn zeta in IH.
      destruct (deepen now n (S d) limit deadline moves db dbe (game w2)
                  (clock w2)) as [[[b e] g2] c2].
      cbn [fst snd] in *. destruct IH as [Hle2 Hsame2].
      assert (Hboth : nle e bestEval /\ (e = bestEval -> e = dbe)).
      { clear - Hle Hle2. split; [nsolve | intros ->; nsolve]. }
      destruct Hboth as [Hle3 Hback]. split; [exact Hle3|].
      intros He. specialize (Hback He). subst e.
      rewrite (Hsame2 eq_refl). apply Hsame. congruence.
Qed.

End MoreRoot.

(* ------------------------------------------------------------------ *)
(** ** The board sum of evaluate *)

Lemma squareScore_split (b : Board) (r c : nat) :
  squareScore b r c = squareMaterial b r c + squareTable b r c.
Proof.
  unfold squareScore, squareMaterial, squareTable.
  destruct (at2 None b r c) as [p|]; [|reflexivity].
  destruct (color p); lia.
Qed.

(** X10: on every board the sum that [evaluate] takes over the squares is
    the material balance (White's material minus Black's) plus the table
    values of all pieces, those of Black's pieces added like those of
    White's, read at the vertically mirrored square. *)
Theorem boardScore_split (b : Board) :
  boardScore b = materialBalance b + tableBalance b.
Proof.
  unfold boardScore, materialBalance, tableBalance.
  cbn [fold_left seq]. rewrite !squareScore_split. lia.
Qed.

(* ------------------------------------------------------------------ *)
(** ** Helpers of the application *)

Lemma coord_grid (r c : nat) :
  (r < 8)%nat -> (c < 8)%nat ->
  coord r c
  = String (ascii_of_nat (97 + c))
      (String (ascii_of_nat (48 + (8 - r))) EmptyString)
  /\ square (coord r c) = (r, c).
Proof.
  intros Hr Hc.
  do 8 (destruct r as [|r];
        [do 8 (destruct c as [|c]; [split; vm_compute; reflexivity|]);
         exfalso; clear - Hc; lia|]).
  exfalso; clear - Hr; lia.
Qed.

(** X11: on the 8x8 grid [coord] names a square by its file letter, "a"
    for column 0, and its rank digit, "8" for row 0, and no two cells of
    the grid get the same name. *)
Theorem coord_names_square (r c r' c' : nat) :
  (r < 8)%nat -> (c < 8)%nat -> (r' < 8)%nat -> (c' < 8)%nat ->
  coord r c
  = String (ascii_of_nat (97 + c))
      (String (ascii_of_nat (48 + (8 - r))) EmptyString)
  /\ (coord r c = coord r' c' -> r = r' /\ c = c').
Proof.
  intros Hr Hc Hr' Hc'.
  destruct (coord_grid Hr Hc) as [Hname H1].
  destruct (coord_grid Hr' Hc') as [_ H2].
  split; [exact Hname|].
  intros E. rewrite E, H2 in H1. injection H1 as <- <-. split; reflexivity.
Qed.

Lemma clock_table : forallb clockRoundTrip (seq 0 (60 * 100)) = true.
Proof. vm_compute. reflexivity. Qed.

(** X12: for a whole number of seconds from 0 up to 99:59, [formatTime]
    gives five characters "mm:ss" that read back as the same number of
    seconds. *)
Theorem formatTime_round_trip (sec : Z) :
  0 <= sec < 6000 ->
  clockValue (formatTime sec) = Some sec
  /\ String.length (formatTime sec) = 5%nat.
Proof.
  intros Hsec.
  assert (Hin : In (Z.to_nat sec) (seq 0 (60 * 100))).
  { apply in_seq. lia. }
  pose proof (proj1 (forallb_forall _ _) clock_table _ Hin) as Hok.
  unfold clockRoundTrip in Hok. rewrite Z2Nat.id in Hok by lia.
  destruct (clockValue (formatTime sec)) as [v|] eqn:Hv; [|discriminate].
  apply andb_prop in Hok. destruct Hok as [Hval Hlen].
  apply Z.eqb_eq in Hval. apply Nat.eqb_eq in Hlen. subst v.
  split; [reflexivity | exact Hlen].
Qed.

(** Outside that range the face is no longer five characters. *)
Example formatTime_edges :
  formatTime 300 = "05:00" /\ formatTime 0 = "00:00"
  /\ formatTime 6000 = "100:00" /\ formatTime (-1) = "-1:-1".
Proof. repeat split; vm_compute; reflexivity. Qed.

Lemma filterFrom_parity {A} (a : list A) :
  forall start i,
    nth_error
      (filterFrom (fun _ idx => (idx mod 2 =? start mod 2)%nat) start a) i
    = nth_error a (2 * i)
    /\ nth_error
         (filterFrom (fun _ idx => (idx mod 2 =? S start mod 2)%nat) start a) i
       = nth_error a (2 * i + 1).
Proof.
  induction a as [|x rest IH]; intros start i.
  - simpl. split; now destruct i; rewrite ?nth_error_nil.
  - cbn [filterFrom]. rewrite Nat.eqb_refl.
    assert (Hflip : (start mod 2 =? S start mod 2)%nat = false).
    { apply Nat.eqb_neq.
      replace (S start) with (start + 1)%nat by lia.
      pose proof (Nat.mod_upper_bound start 2 ltac:(lia)).
      pose proof (Nat.mod_upper_bound (start + 1) 2 ltac:(lia)).
      pose proof (Nat.div_mod_eq start 2).
      pose proof (Nat.div_mod_eq (start + 1) 2).
      lia. }
    rewrite Hflip.
    assert (Hpar : (S (S start) mod 2 = start mod 2)%nat).
    { replace (S (S start)) with (start + 1 * 2)%nat by lia.
      apply Nat.Div0.mod_add. }
    destruct (IH (S start) i) as [IHe IHo].
    split.
    + destruct i as [|i]; [reflexivity|].
      replace (2 * S i)%nat with (S (2 * i + 1)) by lia. cbn [nth_error].
      destruct (IH (S start) i) as [_ IHo'].
      rewrite <- IHo'. rewrite Hpar. reflexivity.
    + replace (2 * i + 1)%nat with (S (2 * i)) by lia. cbn [nth_error].
      exact IHe.
Qed.

(** X13: the two columns of the move list split it without loss: row [i]
    of White's column is move [2i] of the list and row [i] of Black's
    column is move [2i + 1]. *)
Theorem moveList_columns (moveList : list string) (i : nat) :
  nth_error (whiteMoves moveList) i = nth_error moveList (2 * i)
  /\ nth_error (blackMoves moveList) i = nth_error moveList (2 * i + 1).
Proof. apply (filterFrom_parity moveList 0 i). Qed.

(** X14: the pause before the computer moves lies between the two bounds
    of the tier, both included, for every draw in [0,1). *)
Theorem thinkDelay_range (minThink maxThink : Z) (rnd : Q) :
  minThink <= maxThink -> (0 <= rnd < 1)%Q ->
  minThink <= thinkDelay minThink maxThink rnd <= maxThink.
Proof.
  intros Hle [H0 H1]. unfold thinkDelay.
  set (k := maxThink - minThink + 1).
  assert (Hk : (inject_Z 1 <= inject_Z k)%Q) by (rewrite <- Zle_Qle; lia).
  change (inject_Z 1) with 1%Q in Hk.
  assert (0 <= Qfloor (rnd * inject_Z k) < k); [|lia].
  apply Qfloor_unit_range; nra.
Qed.

(* ------------------------------------------------------------------ *)
(** ** The further properties at concrete inputs *)

Lemma minimaxSafe_value_is_an_evaluation_witness :
  exists g',
    ahead 2 kpGame g'
    /\ fst (minimaxSafe (stalledClock 14) 2 freshWorld (Fin 0) (Fin 20) true)
       = Fin (evaluate g').
Proof.
  exact (@minimaxSafe_value_is_an_evaluation TreeGame _ (stalledClock 14)
           TreeLaws 2%nat freshWorld (Fin 0) (Fin 20) true).
Defined.

Lemma minimaxSafe_is_minimax_witness :
  fst (minimaxSafe (fun _ => 0) 2 roomyWorld NegInfinity Infinity true)
  = minimax 2 kpGame true.
Proof.
  destruct (@minimaxSafe_is_minimax TreeGame _ (fun _ => 0) TreeLaws 2%nat
              roomyWorld NegInfinity Infinity true) as [_ Hfull].
  - right. intros n. reflexivity.
  - vm_compute. reflexivity.
  - reflexivity.
  - apply Hfull; reflexivity.
Defined.

Lemma orderMovesSafe_captures_ahead_witness :
  captured (capture Pawn Queen "e4" "d5" "exd5") <> None.
Proof.
  apply (@orderMovesSafe_captures_ahead threeMoves [] []
           [quiet Pawn "a2" "a3"]
           (capture Pawn Queen "e4" "d5" "exd5")
           (capture Queen Pawn "d1" "d7" "Qxd7")).
  - vm_compute. reflexivity.
  - discriminate.
  - discriminate.
Defined.

Lemma orderMovesSafe_king_moves_last_witness :
  piece (quiet King "e1" "e2") = Some King.
Proof.
  apply (@orderMovesSafe_king_moves_last twoKingMoves [] [] []
           (capture King Pawn "e1" "d2" "Kxd2") (quiet King "e1" "e2")).
  - vm_compute. reflexivity.
  - reflexivity.
  - discriminate.
  - discriminate.
Defined.


Lemma findBestMove_only_move_witness :
  fst (fst (findBestMove (stalledClock 14) cornerGame "advanced" 0 (1 # 2)))
  = Chosen Ka7.
Proof.
  apply (@findBestMove_only_move TreeGame _ (stalledClock 14) cornerGame Ka7
           "advanced" 0%nat (1 # 2)).
  - reflexivity.
  - reflexivity.
  - reflexivity.
  - lra.
Defined.

Lemma coord_names_square_witness :
  coord 6 4
  = String (ascii_of_nat (97 + 4))
      (String (ascii_of_nat (48 + (8 - 6))) EmptyString)
  /\ (coord 6 4 = coord 7 4 -> 6%nat = 7%nat /\ 4%nat = 4%nat).
Proof.
  apply (@coord_names_square 6 4 7 4); lia.
Defined.

Lemma formatTime_round_trip_witness :
  clockValue (formatTime 125) = Some 125
  /\ String.length (formatTime 125) = 5%nat.
Proof.
  apply (@formatTime_round_trip 125). lia.
Defined.

Lemma thinkDelay_range_witness :
  1800 <= thinkDelay 1800 2800 (1 # 2) <= 2800.
Proof.
  apply (@thinkDelay_range 1800 2800 (1 # 2)); [lia | lra].
Defined.

(* ------------------------------------------------------------------ *)
(** ** Decided positions inside the search *)

Section Decided.

Context {G : Type} `{Chess G}.
Variable now : nat -> Z.

(** X15: on a position that the game reports as over, or for which it
    lists no move, the search returns the static evaluation at every
    depth, for every window and flag and whatever the budget is, and
    applies no move. *)
Theorem minimaxSafe_decided (depth : nat) (w : World G) (alpha beta : Num)
    (maximizing : bool) :
  isGameOver (game w) = true \/ safeMoves (game w) = [] ->
  fst (minimaxSafe now depth w alpha beta maximizing)
  = Fin (evaluate (game w))
  /\ game (snd (minimaxSafe now depth w alpha beta maximizing)) = game w.
Proof.
  intros Hdecided.
  destruct depth as [|d]; [apply minimaxSafe_leaf|].
  simpl. destruct (overLimit (bump w)); [split; reflexivity|].
  pose proof (timeUp_game now (bump w)) as Hg.
  destruct (timeUp now (bump w)) as [late w1]. cbn [fst snd] in Hg.
  change (game (bump w)) with (game w) in Hg.
  destruct late; [split; [now rewrite Hg | exact Hg]|].
  rewrite Hg.
  destruct (isGameOver (game w)) eqn:Hover; [split; [reflexivity | exact Hg]|].
  destruct Hdecided as [Habs | Hnone]; [discriminate|].
  rewrite Hnone. simpl. split; [reflexivity | exact Hg].
Qed.

End Decided.

Lemma minimaxSafe_decided_witness :
  fst (minimaxSafe (stalledClock 14) 3
         {| game := matedGame;
            state := {| nodes := 0; nodeLimit := Some 8000;
                        endTime := Some 800 |};
            clock := 1 |} NegInfinity Infinity true)
  = Fin (- 100000).
Proof.
  refine (proj1 (@minimaxSafe_decided TreeGame _ (stalledClock 14) 3%nat
           {| game := matedGame;
              state := {| nodes := 0; nodeLimit := Some 8000;
                          endTime := Some 800 |};
              clock := 1 |} NegInfinity Infinity true _)).
  left. reflexivity.
Defined.
